(** * FastLogger runtime: staging ring, drainer, sync protocol, set-up

    A shallow embedding of [runtime/FastLogger.cc].  Pointers into a
    buffer are modelled as integer addresses ([Z]); the 64-bit unsigned
    quantities of the source ([uint64_t], [size_t]) are integers reduced
    modulo [2^64] where the source converts a pointer difference.

    The code runs on several threads.  The functions of the staging
    buffer and of the scan are the sequential code of one thread, and
    what the other threads do in between is an explicit input (the
    values a load of a shared field returns, the state of the registry).
    Where the order of events across threads matters, in the protocol
    between [sync] and the compression thread, the two programs are run
    as interleaved steps on the state they share. *)

From Stdlib Require Import ZArith Lia Bool String.
From stdpp Require Import base list.

Local Open Scope Z_scope.

(** ** Machine integers *)

Definition u64_modulus : Z := 2 ^ 64.

(** Conversion of a [ptrdiff_t] to [uint64_t]. *)
Definition to_u64 (z : Z) : Z := z mod u64_modulus.

(** ** The staging buffer *)

Module Staging.

(** [FastLogger::StagingBuffer].  [storage] is the address of
    [storage[0]]; [contents] are the bytes held by [storage[]].  The
    class is declared in FastLogger.h; [minFreeSpace] is taken to be a
    [uint64_t], like the count [peek] stores through its argument. *)
Record StagingBuffer : Type := mkStagingBuffer {
  storage : Z;
  contents : list Z;
  producerPos : Z;
  consumerPos : Z;
  endOfRecordedSpace : Z;
  minFreeSpace : Z;
  shouldDeallocate : bool
}.

Definition set_producerPos (p : Z) (sb : StagingBuffer) : StagingBuffer :=
  mkStagingBuffer (storage sb) (contents sb) p (consumerPos sb)
    (endOfRecordedSpace sb) (minFreeSpace sb) (shouldDeallocate sb).

Definition set_consumerPos (c : Z) (sb : StagingBuffer) : StagingBuffer :=
  mkStagingBuffer (storage sb) (contents sb) (producerPos sb) c
    (endOfRecordedSpace sb) (minFreeSpace sb) (shouldDeallocate sb).

Definition set_endOfRecordedSpace (e : Z) (sb : StagingBuffer) : StagingBuffer :=
  mkStagingBuffer (storage sb) (contents sb) (producerPos sb) (consumerPos sb)
    e (minFreeSpace sb) (shouldDeallocate sb).

Definition set_minFreeSpace (m : Z) (sb : StagingBuffer) : StagingBuffer :=
  mkStagingBuffer (storage sb) (contents sb) (producerPos sb) (consumerPos sb)
    (endOfRecordedSpace sb) m (shouldDeallocate sb).

(** What one pass through the body of the [while] loop of
    [reserveSpaceInternal] ends in: a [return] (with [None] for
    [nullptr]) or the end of the body, back to the loop test. *)
Inductive iteration : Type :=
| Return (r : option Z) (sb : StagingBuffer)
| LoopAgain (sb : StagingBuffer).

Section Ring.

Variable STAGING_BUFFER_SIZE : Z.

(** The two statements that end the loop body,
    [minFreeSpace = cachedReadPos - producerPos] and the non-blocking
    exit. *)
Definition recompute (cachedReadPos nbytes : Z) (blocking : bool)
    (sb : StagingBuffer) : iteration :=
  let sb' := set_minFreeSpace (to_u64 (cachedReadPos - producerPos sb)) sb in
  if negb blocking && (minFreeSpace sb' <=? nbytes)
  then Return None sb'
  else LoopAgain sb'.

(** The body of the [while] loop, lines 596-616. *)
Definition reserveIteration (nbytes : Z) (blocking : bool)
    (sb : StagingBuffer) : iteration :=
  let endOfBuffer := storage sb + STAGING_BUFFER_SIZE in
  let cachedReadPos := consumerPos sb in
  if cachedReadPos <=? producerPos sb then
    let sb1 := set_minFreeSpace (to_u64 (endOfBuffer - producerPos sb)) sb in
    if minFreeSpace sb1 >? nbytes then Return (Some (producerPos sb1)) sb1
    else
      let sb2 := set_endOfRecordedSpace (producerPos sb1) sb1 in
      let sb3 := set_producerPos (storage sb2) sb2 in
      recompute cachedReadPos nbytes blocking sb3
  else recompute cachedReadPos nbytes blocking sb.

(** [reserveSpaceInternal(nbytes, blocking)].  [loads] lists the value
    that [consumerPos] holds at each successive load by the loop (the
    drainer stores to it concurrently); the field is set to that value
    before the body runs.  [None] as the outer result: the producer
    is still spinning after the last load listed. *)
Fixpoint reserveSpaceInternal (loads : list Z) (nbytes : Z) (blocking : bool)
    (sb : StagingBuffer) : option (option Z * StagingBuffer) :=
  if minFreeSpace sb <=? nbytes then
    match loads with
    | [] => None
    | c :: loads' =>
        match reserveIteration nbytes blocking (set_consumerPos c sb) with
        | Return r sb' => Some (r, sb')
        | LoopAgain sb' => reserveSpaceInternal loads' nbytes blocking sb'
        end
    end
  else Some (Some (producerPos sb), sb).

(** The drainer leaves [consumerPos] alone for [k] loads. *)
Definition idle (k : nat) (sb : StagingBuffer) : list Z :=
  replicate k (consumerPos sb).

(** [peek(&bytesAvailable)]: the pointer returned, the value stored in
    [*bytesAvailable], and the buffer afterwards. *)
Definition peek (sb : StagingBuffer) : Z * Z * StagingBuffer :=
  let cachedRecordHead := producerPos sb in
  if cachedRecordHead <? consumerPos sb then
    let bytesAvailable := to_u64 (endOfRecordedSpace sb - consumerPos sb) in
    if bytesAvailable >? 0 then (consumerPos sb, bytesAvailable, sb)
    else
      let sb' := set_consumerPos (storage sb) sb in
      (consumerPos sb', to_u64 (cachedRecordHead - consumerPos sb'), sb')
  else (consumerPos sb, to_u64 (cachedRecordHead - consumerPos sb), sb).

(** *** Vocabulary of the specification *)

(** A pointer of [sb] lies in [storage, storage + STAGING_BUFFER_SIZE]. *)
Definition in_ring (sb : StagingBuffer) (p : Z) : Prop :=
  storage sb <= p <= storage sb + STAGING_BUFFER_SIZE.

(** The states the two threads keep the ring in: the ring fits the
    address space, both positions lie in it, and once the producer has
    wrapped the consumer is not past [endOfRecordedSpace]. *)
Definition well_formed (sb : StagingBuffer) : Prop :=
  0 <= storage sb /\ storage sb + STAGING_BUFFER_SIZE < u64_modulus /\
  in_ring sb (producerPos sb) /\ in_ring sb (consumerPos sb) /\
  (producerPos sb < consumerPos sb ->
   consumerPos sb <= endOfRecordedSpace sb <= storage sb + STAGING_BUFFER_SIZE).

(** The slow path as the specification words it, steps 1 to 3, on
    plain integers: [1.] load [consumerPos] into [c]; [2.] if
    [c <= producerPos] and the run at the tail exceeds [n], set
    [minFreeSpace] to that run and return [producerPos], otherwise
    publish [endOfRecordedSpace] and wrap; [3.] recompute
    [minFreeSpace = c - producerPos], fail if still insufficient and
    non-blocking, else go round the loop again. *)
Fixpoint slowPathSpec (loads : list Z) (n : Z) (blocking : bool)
    (sb : StagingBuffer) : option (option Z * StagingBuffer) :=
  if minFreeSpace sb <=? n then
    match loads with
    | [] => None
    | c :: loads' =>
        let sb0 := set_consumerPos c sb in
        let step3 := fun sb1 : StagingBuffer =>
          let sb2 := set_minFreeSpace (c - producerPos sb1) sb1 in
          if (minFreeSpace sb2 <=? n) && negb blocking then Some (None, sb2)
          else slowPathSpec loads' n blocking sb2 in
        if c <=? producerPos sb0 then
          let tailRun := storage sb0 + STAGING_BUFFER_SIZE - producerPos sb0 in
          if tailRun >? n
          then Some (Some (producerPos sb0), set_minFreeSpace tailRun sb0)
          else step3 (set_producerPos (storage sb0)
                       (set_endOfRecordedSpace (producerPos sb0) sb0))
        else step3 sb0
    end
  else Some (Some (producerPos sb), sb).

(** The bytes of [storage[]] between two addresses. *)
Definition span (sb : StagingBuffer) (from to : Z) : list Z :=
  take (Z.to_nat (to - from)) (drop (Z.to_nat (from - storage sb)) (contents sb)).

(** The readable region as the specification defines it:
    [[consumerPos, producerPos)] when [consumerPos <= producerPos], else
    [[consumerPos, endOfRecordedSpace)] followed by [[storage, producerPos)]. *)
Definition readable (sb : StagingBuffer) : list Z :=
  if consumerPos sb <=? producerPos sb
  then span sb (consumerPos sb) (producerPos sb)
  else span sb (consumerPos sb) (endOfRecordedSpace sb)
         ++ span sb (storage sb) (producerPos sb).

(** Modelled from the spec: the producer writes its record into the span
    it reserved and commits it ([finishReservation] in FastLogger.h):
    the commit advances [producerPos] by the bytes reserved, which
    leave the producer's [minFreeSpace] cache. *)
Definition finishReservation (at_ : Z) (data : list Z)
    (sb : StagingBuffer) : StagingBuffer :=
  let off := Z.to_nat (at_ - storage sb) in
  let n := Z.of_nat (length data) in
  mkStagingBuffer (storage sb)
    (take off (contents sb) ++ data ++ drop (off + length data) (contents sb))
    (producerPos sb + n) (consumerPos sb) (endOfRecordedSpace sb)
    (minFreeSpace sb - n) (shouldDeallocate sb).

End Ring.

(** *** A ring of 16 bytes at address 4096 *)

(** A new buffer: both positions at [storage], all of it free. *)
Definition fresh16 : StagingBuffer :=
  mkStagingBuffer 4096 (replicate 16 0) 4096 4096 (4096 + 16) 16 false.

(** Ten bytes committed, none consumed yet. *)
Definition ring16 : StagingBuffer :=
  mkStagingBuffer 4096 ([1; 2; 3; 4; 5; 6; 7; 8; 9; 10] ++ replicate 6 0)
    4106 4096 (4096 + 16) 6 false.

(** The producer has wrapped and the consumer has read up to
    [endOfRecordedSpace]. *)
Definition wrapped16 : StagingBuffer :=
  mkStagingBuffer 4096 (replicate 16 7) 4100 4108 4108 8 false.


(** The ring after the producer has wrapped twice over [ring16] while
    the drainer was compressing the ten bytes it had peeked there:
    [consumerPos] is past [endOfRecordedSpace]. *)
Definition overrun16 : StagingBuffer :=
  mkStagingBuffer 4096
    ([11; 12; 13; 14; 15; 16; 17; 18; 9; 10] ++ replicate 6 0)
    4096 4106 4104 10 false.

(** Eight of the ten bytes of [ring16] have been consumed. *)
Definition partly16 : StagingBuffer :=
  mkStagingBuffer 4096 ([1; 2; 3; 4; 5; 6; 7; 8; 9; 10] ++ replicate 6 0)
    4106 4104 (4096 + 16) 6 false.

End Staging.

(** ** The drainer: [FastLogger::compressionThreadMain] *)

Module Drain.
Import Staging.

(** [BufferUtils::UncompressedLogEntry], the header of a record in the
    ring.  The struct is declared in a header outside this file; the
    four fields are the ones [compressionThreadMain] reads. *)
Record UncompressedLogEntry : Type := mkEntry {
  fmtId : Z;
  timestamp : Z;
  entrySize : Z;
  argMetaBytes : Z
}.

(** [re->entrySize + re->argMetaBytes] as line 310 computes it.  The
    two size fields are taken to be [uint32_t], like [fmtId], which the
    code keeps in the [uint32_t lastFmtId]: the sum is made in unsigned
    32-bit arithmetic and wraps, and it is then compared, as a signed
    64-bit integer, with the pointer difference [endOfBuffer - out]. *)
Definition worstCase (re : UncompressedLogEntry) : Z :=
  (entrySize re + argMetaBytes re) mod 2 ^ 32.

(** Modelled from the spec: [StagingBuffer::consume] is defined in
    FastLogger.h; it releases [nbytes] of the last peek back to the
    producer by advancing [consumerPos]. *)
Definition consume (nbytes : Z) (sb : StagingBuffer) : StagingBuffer :=
  set_consumerPos (consumerPos sb + nbytes) sb.

(** Modelled from the spec: [StagingBuffer::checkCanDelete] is defined in
    FastLogger.h; it is true iff [shouldDeallocate] is set and the ring
    is empty. *)
Definition checkCanDelete (sb : StagingBuffer) : bool :=
  shouldDeallocate sb && (consumerPos sb =? producerPos sb).

(** What the drainer does to the outside, in order: calls of a
    per-format compressor (with the cursor at the space check and the
    cursor handed to the compressor) and [delete sb]. *)
Inductive event : Type :=
| Compress (re : UncompressedLogEntry) (outAtCheck outAtCall : Z)
| Destroy (sb : StagingBuffer).

(** The members and locals of [compressionThreadMain] that the scan
    reads and writes.  [out] is the cursor as an offset from
    [compressingBuffer]. *)
Record Drainer : Type := mkDrainer {
  threadBuffers : list StagingBuffer;
  lastStagingBufferChecked : nat;
  i : nat;
  outputBufferFull : bool;
  workFound : bool;
  out : Z;
  lastFmtId : Z;
  lastTimestamp : Z;
  eventsProcessed : Z;
  totalBytesRead : Z;
  compressionThreadShouldExit : bool;
  events : list event
}.

Definition set_threadBuffers (l : list StagingBuffer) (d : Drainer) : Drainer :=
  mkDrainer l (lastStagingBufferChecked d) (i d) (outputBufferFull d)
    (workFound d) (out d) (lastFmtId d) (lastTimestamp d) (eventsProcessed d)
    (totalBytesRead d) (compressionThreadShouldExit d) (events d).

Definition set_lastStagingBufferChecked (n : nat) (d : Drainer) : Drainer :=
  mkDrainer (threadBuffers d) n (i d) (outputBufferFull d)
    (workFound d) (out d) (lastFmtId d) (lastTimestamp d) (eventsProcessed d)
    (totalBytesRead d) (compressionThreadShouldExit d) (events d).

Definition set_i (n : nat) (d : Drainer) : Drainer :=
  mkDrainer (threadBuffers d) (lastStagingBufferChecked d) n (outputBufferFull d)
    (workFound d) (out d) (lastFmtId d) (lastTimestamp d) (eventsProcessed d)
    (totalBytesRead d) (compressionThreadShouldExit d) (events d).

Definition set_outputBufferFull (b : bool) (d : Drainer) : Drainer :=
  mkDrainer (threadBuffers d) (lastStagingBufferChecked d) (i d) b
    (workFound d) (out d) (lastFmtId d) (lastTimestamp d) (eventsProcessed d)
    (totalBytesRead d) (compressionThreadShouldExit d) (events d).

Definition set_workFound (b : bool) (d : Drainer) : Drainer :=
  mkDrainer (threadBuffers d) (lastStagingBufferChecked d) (i d) (outputBufferFull d)
    b (out d) (lastFmtId d) (lastTimestamp d) (eventsProcessed d)
    (totalBytesRead d) (compressionThreadShouldExit d) (events d).

Definition set_totalBytesRead (n : Z) (d : Drainer) : Drainer :=
  mkDrainer (threadBuffers d) (lastStagingBufferChecked d) (i d) (outputBufferFull d)
    (workFound d) (out d) (lastFmtId d) (lastTimestamp d) (eventsProcessed d)
    n (compressionThreadShouldExit d) (events d).

Definition log_event (e : event) (d : Drainer) : Drainer :=
  mkDrainer (threadBuffers d) (lastStagingBufferChecked d) (i d) (outputBufferFull d)
    (workFound d) (out d) (lastFmtId d) (lastTimestamp d) (eventsProcessed d)
    (totalBytesRead d) (compressionThreadShouldExit d) (events d ++ [e]).

(** Lines 319-328: count the event, compress the metadata, move the
    baselines, call the per-format compressor and advance [out]. *)
Definition compressed (re : UncompressedLogEntry) (out1 bytesOut : Z)
    (d : Drainer) : Drainer :=
  mkDrainer (threadBuffers d) (lastStagingBufferChecked d) (i d) (outputBufferFull d)
    (workFound d) (out1 + bytesOut) (fmtId re) (timestamp re)
    (to_u64 (eventsProcessed d + 1))
    (totalBytesRead d) (compressionThreadShouldExit d)
    (events d ++ [Compress re (out d) out1]).

(** How a loop of the drainer stops. *)
Inductive status : Type :=
| Running
| Stopped
| AssertFailed
| OutOfRange
| OutOfFuel.

Section Scan.

Variable OUTPUT_BUFFER_SIZE : Z.
(** [sizeof(BufferUtils::UncompressedLogEntry)]. *)
Variable sizeofEntry : Z.
(** What [reinterpret_cast<UncompressedLogEntry*>(peekPosition)] reads
    from the ring of [sb]. *)
Variable entryAt : StagingBuffer -> Z -> UncompressedLogEntry.
(** [BufferUtils::compressMetadata(re, &out, lastTimestamp, lastFmtId)]:
    the cursor it leaves in [out]. *)
Variable compressMetadata : UncompressedLogEntry -> Z -> Z -> Z -> Z.
(** [compressFnArray[fmtId](re, out)]: the number of bytes written. *)
Variable compressFnArray : Z -> UncompressedLogEntry -> Z -> Z.

(** The [while (readableBytes > 0)] loop, lines 303-333, over the run
    returned by [peek]; [d] is the drainer, [sb] the buffer behind the
    pointer.  Returns the buffer and the bytes left unread as well. *)
Fixpoint compressEntries (fuel : nat) (sb : StagingBuffer)
    (peekPosition readableBytes : Z) (d : Drainer)
    : status * StagingBuffer * Z * Drainer :=
  match fuel with
  | O => (OutOfFuel, sb, readableBytes, d)
  | S fuel' =>
      if readableBytes >? 0 then
        if readableBytes <? sizeofEntry then (AssertFailed, sb, readableBytes, d)
        else
          let re := entryAt sb peekPosition in
          if readableBytes <? entrySize re then (AssertFailed, sb, readableBytes, d)
          else if worstCase re >? OUTPUT_BUFFER_SIZE - out d then
            (Stopped, sb, readableBytes,
             set_outputBufferFull true (set_lastStagingBufferChecked (i d) d))
          else
            let out1 := compressMetadata re (out d) (lastTimestamp d) (lastFmtId d) in
            let bytesOut := compressFnArray (fmtId re) re out1 in
            compressEntries fuel' (consume (entrySize re) sb)
              (peekPosition + entrySize re)
              (to_u64 (readableBytes - entrySize re))
              (compressed re out1 bytesOut d)
      else (Stopped, sb, readableBytes, d)
  end.

(** Lines 356-366: step to the next buffer; a completed pass without
    work ends the scan. *)
Definition advance (d : Drainer) : status * Drainer :=
  let d1 := set_i ((i d + 1) mod length (threadBuffers d))%nat d in
  if (i d1 =? lastStagingBufferChecked d1)%nat then
    if negb (workFound d1) then (Stopped, d1)
    else (Running, set_workFound false d1)
  else (Running, d1).

(** Lines 341-353: the buffer at [i] has nothing to read and may go. *)
Definition eraseBuffer (sb : StagingBuffer) (d : Drainer) : Drainer :=
  let d1 := set_threadBuffers (delete (i d) (threadBuffers d)) d in
  let d2 :=
    if (i d1 =? length (threadBuffers d1))%nat then
      set_i 0%nat
        (if (lastStagingBufferChecked d1 =? i d1)%nat
         then set_lastStagingBufferChecked 0%nat d1 else d1)
    else d1 in
  log_event (Destroy sb) d2.

(** The body of the scan loop, lines 290-366. *)
Definition scanStep (fuel : nat) (d : Drainer) : status * Drainer :=
  match threadBuffers d !! i d with
  | None => (OutOfRange, d)
  | Some sb =>
      let '(peekPosition, readableBytes, sb1) := peek sb in
      if readableBytes >? 0 then
        let d1 := set_workFound true d in
        let '(st, sb2, unread, d2) :=
          compressEntries fuel sb1 peekPosition readableBytes d1 in
        let d3 := set_threadBuffers (<[i d := sb2]> (threadBuffers d2)) d2 in
        let d4 := set_totalBytesRead
                    (to_u64 (totalBytesRead d3 + to_u64 (readableBytes - unread))) d3 in
        match st with
        | Stopped => advance d4
        | _ => (st, d4)
        end
      else if checkCanDelete sb1 then (Running, eraseBuffer sb1 d)
      else advance (set_threadBuffers (<[i d := sb1]> (threadBuffers d)) d)
  end.

(** The scan loop, lines 287-367. *)
Fixpoint scanLoop (fuel : nat) (d : Drainer) : status * Drainer :=
  match fuel with
  | O => (OutOfFuel, d)
  | S fuel' =>
      if negb (compressionThreadShouldExit d) && negb (outputBufferFull d)
         && negb (bool_decide (threadBuffers d = [])) then
        match scanStep fuel' d with
        | (Running, d') => scanLoop fuel' d'
        | r => r
        end
      else (Stopped, d)
  end.

End Scan.

(** *** Writing a batch *)

(** [O_DIRECT] of <fcntl.h> (Linux, x86). *)
Definition O_DIRECT : Z := 16384.

(** [memset(buf + off, v, len)] on a buffer held as a list; [None] when
    the call writes past the end of the buffer. *)
Fixpoint memset (buf : list Z) (off : nat) (v : Z) (len : nat)
    : option (list Z) :=
  match len with
  | O => Some buf
  | S len' =>
      if (off <? length buf)%nat
      then memset (<[off := v]> buf) (S off) v len'
      else None
  end.

Section Output.

(** The flags the log file is opened with, a constant of FastLogger.h. *)
Variable FILE_PARAMS : Z.

(** Lines 394-403.  [out] is the cursor as an offset from
    [compressingBuffer], whose bytes are [buf].  Returns the buffer,
    [bytesToWrite] and [padBytesWritten]. *)
Definition padBatch (buf : list Z) (out padBytesWritten : Z)
    : option (list Z) * Z * Z :=
  let bytesToWrite := out in
  if negb (Z.land FILE_PARAMS O_DIRECT =? 0) then
    let bytesOver := Z.rem bytesToWrite 512 in
    if negb (bytesOver =? 0) then
      (memset buf (Z.to_nat out) 0 (Z.to_nat bytesOver),
       bytesToWrite + 512 - bytesOver,
       to_u64 (padBytesWritten + (512 - bytesOver)))
    else (Some buf, bytesToWrite, padBytesWritten)
  else (Some buf, bytesToWrite, padBytesWritten).

End Output.

(** *** Between two scans *)

(** Lines 269-283: a scan starts with an empty output buffer, at the
    buffer where the last one stopped. *)
Definition startScan (d : Drainer) : Drainer :=
  mkDrainer (threadBuffers d) (lastStagingBufferChecked d)
    (lastStagingBufferChecked d) false false 0 (lastFmtId d) (lastTimestamp d)
    (eventsProcessed d) (totalBytesRead d) (compressionThreadShouldExit d)
    (events d).

(** Modelled from the spec: when the thread that owns a buffer exits,
    a scoped destroyer ([StagingBufferDestroyer] in FastLogger.h) marks
    [shouldDeallocate]. *)
Definition markDeallocate (sb : StagingBuffer) : StagingBuffer :=
  mkStagingBuffer (storage sb) (contents sb) (producerPos sb) (consumerPos sb)
    (endOfRecordedSpace sb) (minFreeSpace sb) true.

Definition ownerExits (n : nat) (d : Drainer) : Drainer :=
  set_threadBuffers (alter markDeallocate n (threadBuffers d)) d.

(** *** Two buffers in the registry *)

(** An empty ring whose owner is alive, and the same ring once its
    owner has exited. *)
Definition alive : StagingBuffer :=
  mkStagingBuffer 4096 (replicate 16 0) 4096 4096 (4096 + 16) 16 false.

Definition departed : StagingBuffer := markDeallocate alive.

(** A ring that holds one record of 24 bytes, and the same ring once
    the record has been consumed. *)
Definition busy : StagingBuffer :=
  mkStagingBuffer 8192 (replicate 64 1) (8192 + 24) 8192 (8192 + 64) 40 false.

Definition quiet : StagingBuffer :=
  mkStagingBuffer 8192 (replicate 64 1) (8192 + 24) (8192 + 24) (8192 + 64)
    40 false.

(** A scan that comes on [busy] with 16 bytes left in an output buffer
    of 1024. *)
Definition firstPass : Drainer :=
  mkDrainer [alive; busy] 0 0 false false (1024 - 16) 0 0 0 0 false [].

(** A ring holding one record of 24 bytes. *)
Definition loaded : StagingBuffer :=
  mkStagingBuffer 4096 (replicate 64 1) (4096 + 24) 4096 (4096 + 64) 40 false.

(** A record of 24 bytes with 8 bytes of argument metadata. *)
Definition record24 : UncompressedLogEntry := mkEntry 7 1000 24 8.

(** The drainer about to scan [loaded], the cursor 32 bytes before the
    end of an output buffer of 1024 bytes. *)
Definition nearlyFull : Drainer :=
  mkDrainer [loaded] 0 0 false false (1024 - 32) 0 0 0 0 false [].

(** A metadata compressor that writes three bytes and a per-format
    compressor that writes twenty. *)
Definition meta3 (re : UncompressedLogEntry) (out lastTimestamp lastFmtId : Z) : Z :=
  out + 3.

Definition args20 (fmt : Z) (re : UncompressedLogEntry) (out : Z) : Z := 20.

(** An output buffer that still holds the bytes of an earlier batch. *)
Definition stale1024 : list Z := replicate 1024 170.

(** [O_RDWR | O_CREAT | O_APPEND | O_DIRECT]. *)
Definition directParams : Z := Z.lor (Z.lor 2 (Z.lor 64 1024)) O_DIRECT.

(** *** Properties of the events of a scan *)

(** At the call of the per-format compressor, the worst case of the
    record fits between the cursor handed to it and the end of a
    buffer of [size] bytes. *)
Definition room_at_call (size : Z) (e : event) : Prop :=
  match e with
  | Compress re _ outAtCall => entrySize re + argMetaBytes re <= size - outAtCall
  | Destroy _ => True
  end.

(** The call was made after a space check that passed: the worst case
    of the record, the sum of line 310 as the code computes it, fitted
    at [outAtCheck], the cursor then handed to the metadata compressor
    [cm], and [outAtCall] is the cursor [cm] left. *)
Definition call_after_check (size : Z)
    (cm : UncompressedLogEntry -> Z -> Z -> Z -> Z) (e : event) : Prop :=
  match e with
  | Compress re outAtCheck outAtCall =>
      worstCase re <= size - outAtCheck /\
      exists lastTimestamp lastFmtId,
        outAtCall = cm re outAtCheck lastTimestamp lastFmtId
  | Destroy _ => True
  end.

(** An index the scan can use on the registry. *)
Definition valid_index (n : nat) (d : Drainer) : Prop :=
  (n < length (threadBuffers d))%nat.

(** What [reinterpret_cast] finds when every record in the ring is
    [record24]. *)
Definition readRecord24 (sb : StagingBuffer) (peekPosition : Z)
    : UncompressedLogEntry := record24.

(** Two scans later the record of [busy] has been compressed, the
    owner of buffer 0 has exited, and a third scan, started at buffer 1,
    has found nothing there and has moved on to buffer 0. *)
Definition midPass : Drainer :=
  mkDrainer [departed; quiet] 1 0 false false 0 7 1000 1 24 false
    [Compress record24 0 3].

(** [midPass] once buffer 0 is gone. *)
Definition stranded : Drainer :=
  mkDrainer [quiet] 1 0 false false 0 7 1000 1 24 false
    [Compress record24 0 3; Destroy departed].

(** The event is a call of a per-format compressor. *)
Definition is_call (e : event) : Prop :=
  match e with
  | Compress _ _ _ => True
  | Destroy _ => False
  end.

(** The events by which [d'] extends [d] are destructions and calls
    made after a space check that passed. *)
Definition appends_checked (size : Z)
    (cm : UncompressedLogEntry -> Z -> Z -> Z -> Z) (d d' : Drainer) : Prop :=
  exists new, events d' = events d ++ new /\
    Forall (call_after_check size cm) new.


(** *** What a scan leaves behind *)

Definition is_compress (e : event) : bool :=
  match e with
  | Compress _ _ _ => true
  | Destroy _ => false
  end.

(** The calls of a per-format compressor among the events. *)
Fixpoint count_calls (l : list event) : nat :=
  match l with
  | [] => O
  | e :: l' => if is_compress e then S (count_calls l') else count_calls l'
  end.

(** The buffers destroyed among the events. *)
Fixpoint count_destroyed (l : list event) : nat :=
  match l with
  | [] => O
  | e :: l' => if is_compress e then count_destroyed l' else S (count_destroyed l')
  end.

(** The record of the last call among the events. *)
Fixpoint last_entry (l : list event) : option UncompressedLogEntry :=
  match l with
  | [] => None
  | e :: l' =>
      match last_entry l' with
      | Some re => Some re
      | None =>
          match e with
          | Compress re _ _ => Some re
          | Destroy _ => None
          end
      end
  end.

(** How the counters, the registry and the baselines of [d'] relate to
    those of [d] through the events in between. *)
Definition scan_effect (d d' : Drainer) : Prop :=
  exists new,
    events d' = events d ++ new /\
    to_u64 (eventsProcessed d')
    = to_u64 (eventsProcessed d + Z.of_nat (count_calls new)) /\
    length (threadBuffers d)
    = (length (threadBuffers d') + count_destroyed new)%nat /\
    match last_entry new with
    | Some re => lastFmtId d' = fmtId re /\ lastTimestamp d' = timestamp re
    | None => lastFmtId d' = lastFmtId d /\ lastTimestamp d' = lastTimestamp d
    end.

(** The compressors keep to the worst case the drainer checks for: the
    metadata and the arguments of a record together take no more than
    [entrySize + argMetaBytes] bytes. *)
Definition within_worst_case
    (cm : UncompressedLogEntry -> Z -> Z -> Z -> Z)
    (cf : Z -> UncompressedLogEntry -> Z -> Z) : Prop :=
  forall re o ts f,
    cm re o ts f + cf (fmtId re) re (cm re o ts f)
    <= o + (entrySize re + argMetaBytes re).

(** No record the drainer reads has a worst case that wraps: the sum
    of its two size fields fits their 32 bits. *)
Definition sums_fit
    (entryAt : StagingBuffer -> Z -> UncompressedLogEntry) : Prop :=
  forall sb p,
    0 <= entrySize (entryAt sb p) + argMetaBytes (entryAt sb p) < 2 ^ 32.

(** A record of 24 bytes whose metadata count makes the sum of line 310
    wrap to 16, and what [reinterpret_cast] finds when every record in
    the ring is that one. *)
Definition wideRecord : UncompressedLogEntry := mkEntry 7 1000 24 (2 ^ 32 - 8).

Definition readWideRecord (sb : StagingBuffer) (peekPosition : Z)
    : UncompressedLogEntry := wideRecord.

(** A per-format compressor that fills what [meta3] leaves of the worst
    case. *)
Definition argsRest (fmt : Z) (re : UncompressedLogEntry) (out : Z) : Z :=
  entrySize re + argMetaBytes re - 3.

(** A ring with nothing to read whose owner is alive. *)
Definition idle_buffer (sb : StagingBuffer) : Prop :=
  producerPos sb = consumerPos sb /\ shouldDeallocate sb = false.

(** Two idle rings, the last scan having stopped at the second. *)
Definition twoIdle : Drainer :=
  mkDrainer [alive; quiet] 1 0 false false 23 7 1000 1 24 false
    [Compress record24 0 3].

(** The two facts a step of the scan keeps about its indices: [i] is
    a valid index unless the registry is empty, and a scan that has
    stopped on a full output has saved a valid index. *)
Definition indices_fine (d : Drainer) : Prop :=
  (threadBuffers d = [] \/ valid_index (i d) d) /\
  (outputBufferFull d = true -> valid_index (lastStagingBufferChecked d) d).

End Drain.

(** ** Set-up and change of the log file *)

Module Setup.

(** How the constructor ends: [std::exit] after a diagnostic, or a
    running logger. *)
Inductive construction : Type :=
| Exits (code : Z) (diagnostic : string)
| Constructed (outputFd compressingBuffer outputDoubleBuffer : Z).

Definition open_diagnostic : string :=
  "FastLogger could not open the default file location for the log file".

Definition alloc_diagnostic : string :=
  "The FastLogger system was not able to allocate enough memory to support its operations. Quitting...".

(** [FastLogger::FastLogger()], lines 63-90.  [open_ret] is what
    [open] returns; [alloc1] and [alloc2] are, for each
    [posix_memalign], the error returned and the pointer left in its
    first argument. *)
Definition FastLogger_ctor (open_ret : Z) (alloc1 alloc2 : Z * Z)
    : construction :=
  let outputFd := open_ret in
  if outputFd =? 0 then Exits (-1) open_diagnostic
  else
    let '(err1, compressingBuffer) := alloc1 in
    if negb (err1 =? 0) then Exits (-1) alloc_diagnostic
    else
      let '(err2, outputDoubleBuffer) := alloc2 in
      if negb (err2 =? 0) then Exits (-1) alloc_diagnostic
      else Constructed outputFd compressingBuffer outputDoubleBuffer.

(** The steps of a change of file, in program order. *)
Inductive action : Type :=
| CallSync
| RequestExit
| JoinThread
| CloseFd (fd : Z)
| StoreOutputFd (fd : Z)
| ClearExit
| LaunchThread.

(** How [setLogFile_internal] ends. *)
Inductive switch : Type :=
| Throws (what : string)
| Switched (steps : list action).

(** [FastLogger::setLogFile_internal(filename)], lines 487-523.
    [exists_ret] and [rw_ret] are what [access(filename, F_OK)] and
    [access(filename, R_OK | W_OK)] return, [open_ret] what [open]
    returns; [joinable] and [outputFd] are the state of the logger. *)
Definition setLogFile_internal (filename : string)
    (exists_ret rw_ret open_ret : Z) (joinable : bool) (outputFd : Z)
    : switch :=
  if (exists_ret =? 0) && negb (rw_ret =? 0) then
    Throws (String.append "Unable to read/write from file: " filename)
  else
    let newFd := open_ret in
    if newFd =? 0 then
      Throws (String.append "Unable to create file: " filename)
    else
      Switched ([CallSync; RequestExit]
                ++ (if joinable then [JoinThread] else [])
                ++ (if outputFd >? 0 then [CloseFd outputFd] else [])
                ++ [StoreOutputFd newFd; ClearExit; LaunchThread]).

End Setup.

(** ** The life of a logger: constructor, changes of file, destructor *)

Module Lifecycle.
Import Setup.

(** The members the destructor releases, and whether
    [compressionThread] is joinable. *)
Record Members : Type := mkMembers {
  outputFd : Z;
  compressingBuffer : Z;
  outputDoubleBuffer : Z;
  joinable : bool
}.

(** What a logger does to the system, in program order: [open] with
    what it returned, a successful [posix_memalign] with the pointer
    it left, [free], and the steps of [Setup.action]. *)
Inductive sys : Type :=
| Open (ret : Z)
| Memalign (p : Z)
| FreeBuffer (p : Z)
| Did (a : action).

(** [FastLogger::FastLogger()] when it does not exit: lines 63-90. *)
Definition construct (open_ret : Z) (alloc1 alloc2 : Z * Z)
    : option (list sys * Members) :=
  match FastLogger_ctor open_ret alloc1 alloc2 with
  | Constructed fd p1 p2 =>
      Some ([Open open_ret; Memalign p1; Memalign p2; Did LaunchThread],
            mkMembers fd p1 p2 true)
  | Exits _ _ => None
  end.

(** [FastLogger::~FastLogger()], lines 96-122. *)
Definition FastLogger_dtor (m : Members) : list sys * Members :=
  let stop :=
    [Did CallSync; Did RequestExit]
    ++ (if joinable m then [Did JoinThread] else []) in
  let '(free1, compressingBuffer') :=
    if negb (compressingBuffer m =? 0)
    then ([FreeBuffer (compressingBuffer m)], 0)
    else ([], compressingBuffer m) in
  let '(free2, outputDoubleBuffer') :=
    if negb (outputDoubleBuffer m =? 0)
    then ([FreeBuffer (outputDoubleBuffer m)], 0)
    else ([], outputDoubleBuffer m) in
  let close := if outputFd m >? 0 then [Did (CloseFd (outputFd m))] else [] in
  (stop ++ free1 ++ free2 ++ close,
   mkMembers 0 compressingBuffer' outputDoubleBuffer' false).

(** What happens to a logger between its constructor and its
    destructor: a call of [setLogFile] (lines 540-544), with what
    [access] and [open] answer, or a swap of the two buffers by the
    compression thread (lines 444-446). *)
Inductive request : Type :=
| SetLogFile (filename : string) (exists_ret rw_ret open_ret : Z)
| BuffersSwapped.

(** [FastLogger::setLogFile(filename)] on the members: [open] is called
    (line 496) unless the first test has thrown, and the descriptor is
    stored unless the second has. *)
Definition setLogFile (filename : string) (exists_ret rw_ret open_ret : Z)
    (m : Members) : list sys * Members :=
  match setLogFile_internal filename exists_ret rw_ret open_ret
          (joinable m) (outputFd m) with
  | Throws _ =>
      (if (exists_ret =? 0) && negb (rw_ret =? 0) then [] else [Open open_ret],
       m)
  | Switched steps =>
      (Open open_ret :: map Did steps,
       mkMembers open_ret (compressingBuffer m) (outputDoubleBuffer m) true)
  end.

Definition serve (r : request) (m : Members) : list sys * Members :=
  match r with
  | SetLogFile filename exists_ret rw_ret open_ret =>
      setLogFile filename exists_ret rw_ret open_ret m
  | BuffersSwapped =>
      ([], mkMembers (outputFd m) (outputDoubleBuffer m) (compressingBuffer m)
             (joinable m))
  end.

Fixpoint serve_all (rs : list request) (m : Members) : list sys * Members :=
  match rs with
  | [] => ([], m)
  | r :: rs' =>
      let '(t, m') := serve r m in
      let '(t', m'') := serve_all rs' m' in
      (t ++ t', m'')
  end.

(** A whole life: the constructor, the requests, the destructor. *)
Definition life (open_ret : Z) (alloc1 alloc2 : Z * Z) (rs : list request)
    : option (list sys) :=
  match construct open_ret alloc1 alloc2 with
  | None => None
  | Some (t0, m0) =>
      let '(t1, m1) := serve_all rs m0 in
      Some (t0 ++ t1 ++ (FastLogger_dtor m1).1)
  end.

(** *** What is held *)

(** The descriptors open and the buffers allocated, and whether every
    [close] and [free] so far was of one of them. *)
Record ledger : Type := mkLedger {
  descriptors : list Z;
  buffers : list Z;
  sound : bool
}.

Fixpoint take_out (x : Z) (l : list Z) : option (list Z) :=
  match l with
  | [] => None
  | y :: l' =>
      if y =? x then Some l'
      else match take_out x l' with
           | Some k => Some (y :: k)
           | None => None
           end
  end.

(** [open] returns a descriptor, 0 or above, or -1; [posix_memalign]
    leaves a pointer; [close] and [free] give one back. *)
Definition book (l : ledger) (e : sys) : ledger :=
  match e with
  | Open ret =>
      if 0 <=? ret then mkLedger (ret :: descriptors l) (buffers l) (sound l)
      else l
  | Memalign p =>
      if p =? 0 then l
      else mkLedger (descriptors l) (p :: buffers l) (sound l)
  | FreeBuffer p =>
      match take_out p (buffers l) with
      | Some b => mkLedger (descriptors l) b (sound l)
      | None => mkLedger (descriptors l) (buffers l) false
      end
  | Did (CloseFd fd) =>
      match take_out fd (descriptors l) with
      | Some d => mkLedger d (buffers l) (sound l)
      | None => mkLedger (descriptors l) (buffers l) false
      end
  | Did _ => l
  end.

Definition audit (t : list sys) : ledger :=
  fold_left book t (mkLedger [] [] true).

(** Those of [l] that are not 0. *)
Definition nonzero (l : list Z) : list Z :=
  List.filter (fun x => negb (x =? 0)) l.

(** The ledger agrees with the members: the descriptor above 0 in
    [outputFd] is open, besides descriptors 0, and the two buffers are
    allocated. *)
Definition agrees (m : Members) (l : ledger) : Prop :=
  sound l = true /\
  outputFd m <> 0 /\
  nonzero (descriptors l) = (if outputFd m >? 0 then [outputFd m] else []) /\
  (buffers l = nonzero [outputDoubleBuffer m; compressingBuffer m] \/
   buffers l = nonzero [compressingBuffer m; outputDoubleBuffer m]).

(** Five changes of file, one refused for its permissions, one on
    which [open] returns 0, one on which it fails, and a batch. *)
Definition someRequests : list request :=
  [SetLogFile "a" (-1) 0 4; SetLogFile "b" 0 (-1) 5; BuffersSwapped;
   SetLogFile "c" 0 0 0; SetLogFile "d" (-1) (-1) (-1);
   SetLogFile "e" 0 0 6].

End Lifecycle.

(** ** The sync protocol: [compressionThreadMain] against [sync] *)

(** The outer loop of [compressionThreadMain] and the body of [sync] as
    two programs that take turns on the state they share.  A step is one
    statement (or one critical section) of one thread.  The scan of
    lines 272-370 is entered in one step and left in another: by which
    of the four ways out of the loop of lines 287-367 it is left, and
    whether anything was compressed, are open, except that it is left
    by the test of [compressionThreadShouldExit] only when that flag is
    set; no step says that a scan ends.  A [wait] on a condition
    variable ends on a notification or spuriously, a [wait_for] also on
    its time-out, and both give up [condMutex] while they wait.  One
    thread at a time is inside [sync]. *)

Module SyncProtocol.

(** Where the compression thread is: at the test of the outer loop
    (line 267), in the scan, past it with [out == compressingBuffer] or
    not (line 373), holding [condMutex] before the test of
    [syncRequested] (line 378), past [notify_one] (line 385), in
    [wait_for] (line 386), or out of the loop. *)
Inductive drainer_pc : Type :=
| DTop
| DScan
| DScanned (nothingCompressed : bool)
| DLocked
| DNotified
| DWaiting
| DDone.

(** Where the caller of [sync] is: outside, before the lock (line 556),
    before each of lines 557, 558 and 559, waiting on
    [hintQueueEmptied], or woken and about to return. *)
Inductive caller_pc : Type :=
| SOutside
| SCalled
| SLocked
| SSet
| SNotified
| SWaiting
| SWoken.

Inductive owner : Type :=
| Free
| HeldByDrainer
| HeldByCaller.

Record world : Type := mkWorld {
  syncRequested : bool;
  compressionThreadShouldExit : bool;
  condMutex : owner;
  drainer : drainer_pc;
  caller : caller_pc
}.

(** The ways out of the scan loop of lines 287-367: the three tests of
    its condition, [compressionThreadShouldExit] (line 287),
    [outputBufferFull] (line 288) and an empty registry (line 289), and
    the [break] of line 362 at the end of a pass that found no work. *)
Inductive scan_exit : Type :=
| ToldToExit
| OutputFull
| RegistryEmpty
| IdlePass.

Inductive event : Type :=
| ScanStart
| ScanEnd (how : scan_exit) (nothingCompressed : bool)
| DrainerLocks
| ClearSync
| NotifyHintQueueEmptied
| TimedWait
| TimedWaitEnds
| WriteBatch
| DrainerExits
| SyncCall
| CallerLocks
| SetSync
| NotifyWorkAdded
| WaitHintQueueEmptied
| SpuriousWake
| SyncReturn
| ExitRequested
| Relaunched.

#[global] Instance drainer_pc_eq : EqDecision drainer_pc.
Proof. solve_decision. Defined.

#[global] Instance caller_pc_eq : EqDecision caller_pc.
Proof. solve_decision. Defined.

#[global] Instance owner_eq : EqDecision owner.
Proof. solve_decision. Defined.

#[global] Instance world_eq : EqDecision world.
Proof. solve_decision. Defined.

#[global] Instance scan_exit_eq : EqDecision scan_exit.
Proof. solve_decision. Defined.

#[global] Instance event_eq : EqDecision event.
Proof. solve_decision. Defined.

Definition set_drainer (pc : drainer_pc) (w : world) : world :=
  mkWorld (syncRequested w) (compressionThreadShouldExit w) (condMutex w)
    pc (caller w).

Definition set_caller (pc : caller_pc) (w : world) : world :=
  mkWorld (syncRequested w) (compressionThreadShouldExit w) (condMutex w)
    (drainer w) pc.

Definition set_condMutex (o : owner) (w : world) : world :=
  mkWorld (syncRequested w) (compressionThreadShouldExit w) o
    (drainer w) (caller w).

Definition set_syncRequested (b : bool) (w : world) : world :=
  mkWorld b (compressionThreadShouldExit w) (condMutex w)
    (drainer w) (caller w).

Definition set_exit (b : bool) (w : world) : world :=
  mkWorld (syncRequested w) b (condMutex w) (drainer w) (caller w).

(** The scan is left by [how], with something compressed or not. *)
Definition scan_ends (how : scan_exit) (w : world) : list (event * world) :=
  [(ScanEnd how true, set_drainer (DScanned true) w);
   (ScanEnd how false, set_drainer (DScanned false) w)].

(** The steps of [compressionThreadMain], lines 267-459. *)
Definition drainer_steps (w : world) : list (event * world) :=
  match drainer w with
  | DTop =>
      if compressionThreadShouldExit w
      then [(DrainerExits, set_drainer DDone w)]
      else [(ScanStart, set_drainer DScan w)]
  | DScan =>
      (if compressionThreadShouldExit w then scan_ends ToldToExit w else [])
      ++ scan_ends OutputFull w ++ scan_ends RegistryEmpty w
      ++ scan_ends IdlePass w
  | DScanned true =>
      match condMutex w with
      | Free =>
          [(DrainerLocks, set_drainer DLocked (set_condMutex HeldByDrainer w))]
      | _ => []
      end
  | DScanned false => [(WriteBatch, set_drainer DTop w)]
  | DLocked =>
      if syncRequested w then
        [(ClearSync,
          set_drainer DTop (set_condMutex Free (set_syncRequested false w)))]
      else
        [(NotifyHintQueueEmptied,
          set_drainer DNotified
            (match caller w with
             | SWaiting => set_caller SWoken w
             | _ => w
             end))]
  | DNotified => [(TimedWait, set_drainer DWaiting (set_condMutex Free w))]
  | DWaiting =>
      match condMutex w with
      | Free => [(TimedWaitEnds, set_drainer DTop w)]
      | _ => []
      end
  | DDone => []
  end.

(** The steps of [sync], lines 556-559.  The [wait] of line 559 has no
    predicate: it ends when the drainer notifies, and it may end
    spuriously. *)
Definition caller_steps (w : world) : list (event * world) :=
  match caller w with
  | SOutside => [(SyncCall, set_caller SCalled w)]
  | SCalled =>
      match condMutex w with
      | Free =>
          [(CallerLocks, set_caller SLocked (set_condMutex HeldByCaller w))]
      | _ => []
      end
  | SLocked => [(SetSync, set_caller SSet (set_syncRequested true w))]
  | SSet => [(NotifyWorkAdded, set_caller SNotified w)]
  | SNotified =>
      [(WaitHintQueueEmptied, set_caller SWaiting (set_condMutex Free w))]
  | SWaiting => [(SpuriousWake, set_caller SWoken w)]
  | SWoken =>
      match condMutex w with
      | Free => [(SyncReturn, set_caller SOutside w)]
      | _ => []
      end
  end.

(** What the destructor and [setLogFile_internal] do to the thread: set
    [compressionThreadShouldExit] under [condMutex] (lines 100-101 and
    508-509), and start the thread again once it has ended (lines
    521-522). *)
Definition other_steps (w : world) : list (event * world) :=
  (match condMutex w with
   | Free => [(ExitRequested, set_exit true w)]
   | _ => []
   end)
  ++ (match drainer w with
      | DDone => [(Relaunched, set_drainer DTop (set_exit false w))]
      | _ => []
      end).

Definition steps (w : world) : list (event * world) :=
  drainer_steps w ++ caller_steps w ++ other_steps w.

(** The thread has been started by the constructor and nobody has
    called [sync]. *)
Definition start : world := mkWorld false false Free DTop SOutside.

(** The runs of the two threads, with the events in order. *)
Inductive reachable : world -> list event -> Prop :=
| reach_start : reachable start []
| reach_step w t e w' :
    reachable w t -> In (e, w') (steps w) -> reachable w' (t ++ [e]).

(** *** The order of events *)

(** The four events a caller waits for, in order: the drainer clears the
    request, starts a scan, ends a scan with nothing compressed, and
    signals. *)
Definition fresh_scan (how : scan_exit) : list event :=
  [ClearSync; ScanStart; ScanEnd how true; NotifyHintQueueEmptied].

(** A scan from its start to an end with nothing compressed. *)
Definition whole_scan (how : scan_exit) : list event :=
  [ScanStart; ScanEnd how true].

(** What has to be known of the events so far: the values they leave in
    [syncRequested] and [compressionThreadShouldExit], the last event
    of each thread in its program order, how many of the events of
    [fresh_scan] have come, in order, since the last [SetSync], how
    many of [whole_scan] since the last [ClearSync], and whether the
    wait of the caller has ended spuriously since the last [SetSync]. *)
Record summary : Type := mkSummary {
  flag : bool;
  exiting : bool;
  lastOfDrainer : option event;
  lastOfCaller : option event;
  progress : nat;
  scanned : nat;
  spurious : bool
}.

#[global] Instance summary_eq : EqDecision summary.
Proof. solve_decision. Defined.

Definition is_drainer_event (e : event) : bool :=
  match e with
  | ScanStart | ScanEnd _ _ | ClearSync | NotifyHintQueueEmptied | TimedWait
  | WriteBatch | DrainerExits => true
  | _ => false
  end.

Definition is_caller_event (e : event) : bool :=
  match e with
  | SyncCall | SetSync | NotifyWorkAdded | WaitHintQueueEmptied
  | SyncReturn => true
  | _ => false
  end.

Definition advance_progress (k : nat) (e : event) : nat :=
  match e, k with
  | SetSync, _ => 0
  | ClearSync, 0 => 1
  | ScanStart, 1 => 2
  | ScanEnd _ true, 2 => 3
  | NotifyHintQueueEmptied, 3 => 4
  | _, _ => k
  end%nat.

Definition advance_scanned (k : nat) (e : event) : nat :=
  match e, k with
  | ClearSync, _ => 0
  | ScanStart, 0 => 1
  | ScanEnd _ true, 1 => 2
  | _, _ => k
  end%nat.

Definition observe (s : summary) (e : event) : summary :=
  mkSummary
    (match e with
     | SetSync => true
     | ClearSync => false
     | _ => flag s
     end)
    (match e with
     | ExitRequested => true
     | Relaunched => false
     | _ => exiting s
     end)
    (if is_drainer_event e then Some e else lastOfDrainer s)
    (if is_caller_event e then Some e else lastOfCaller s)
    (advance_progress (progress s) e)
    (advance_scanned (scanned s) e)
    (match e with
     | SetSync => false
     | SpuriousWake => true
     | _ => spurious s
     end).

Definition nothing_yet : summary := mkSummary false false None None 0 0 false.

Definition summarize (t : list event) : summary :=
  fold_left observe t nothing_yet.

(** The drainer is at the test of its outer loop. *)
Definition at_loop_head (last : option event) : bool :=
  match last with
  | None | Some ClearSync | Some TimedWait | Some WriteBatch
  | Some DrainerExits => true
  | _ => false
  end.

(** The last event of the drainer is the end of a scan, with something
    compressed or not. *)
Definition scan_ended (nothingCompressed : bool) (last : option event) : bool :=
  match last with
  | Some (ScanEnd _ b) => bool_decide (b = nothingCompressed)
  | _ => false
  end.

(** The order of the sync protocol, as what may come next.  The drainer
    starts a scan only from the head of its loop, with
    [compressionThreadShouldExit] clear, and a scan ends by the exit
    test only with that flag set.  After a scan that compressed nothing
    the drainer clears [syncRequested] if it is set, and otherwise
    signals [hintQueueEmptied]; it signals only then, and only with a
    whole scan started and ended since it last cleared the flag.  The
    caller sets the flag, notifies [workAdded] and waits; it returns
    only from that wait, and then either the events of [fresh_scan] have
    all come, in order, since it set the flag, or the wait has ended
    spuriously. *)
Definition allowed (s : summary) (e : event) : bool :=
  match e with
  | ScanStart => at_loop_head (lastOfDrainer s) && negb (exiting s)
  | DrainerExits => at_loop_head (lastOfDrainer s) && exiting s
  | ScanEnd how _ =>
      bool_decide (lastOfDrainer s = Some ScanStart)
      && (negb (bool_decide (how = ToldToExit)) || exiting s)
  | ClearSync => scan_ended true (lastOfDrainer s) && flag s
  | NotifyHintQueueEmptied =>
      scan_ended true (lastOfDrainer s) && negb (flag s)
      && bool_decide (scanned s = 2%nat)
  | WriteBatch => scan_ended false (lastOfDrainer s)
  | TimedWait => bool_decide (lastOfDrainer s = Some NotifyHintQueueEmptied)
  | SetSync => bool_decide (lastOfCaller s = Some SyncCall)
  | NotifyWorkAdded => bool_decide (lastOfCaller s = Some SetSync)
  | WaitHintQueueEmptied => bool_decide (lastOfCaller s = Some NotifyWorkAdded)
  | SpuriousWake => bool_decide (lastOfCaller s = Some WaitHintQueueEmptied)
  | SyncReturn =>
      bool_decide (lastOfCaller s = Some WaitHintQueueEmptied)
      && (bool_decide (progress s = 4%nat) || spurious s)
  | _ => true
  end.

Fixpoint well_ordered_from (s : summary) (t : list event) : bool :=
  match t with
  | [] => true
  | e :: t' => allowed s e && well_ordered_from (observe s e) t'
  end.

(** Every event of the trace was allowed by the events before it. *)
Definition well_ordered (t : list event) : bool :=
  well_ordered_from nothing_yet t.

(** The events since the last [mark]. *)
Definition since (mark : event) (t : list event) : list event :=
  fold_left
    (fun acc e => if bool_decide (e = mark) then [] else acc ++ [e]) t [].

Definition since_request (t : list event) : list event := since SetSync t.

Definition since_clear (t : list event) : list event := since ClearSync t.

(** A scan that went on until a whole pass over the registry found no
    work, or found the registry empty. *)
Definition full_scan (how : scan_exit) : bool :=
  match how with
  | IdlePass | RegistryEmpty => true
  | ToldToExit | OutputFull => false
  end.

(** *** The states the two threads reach *)

Definition node : Type := world * summary.

Definition memb (p : node) (l : list node) : bool :=
  existsb (fun q => bool_decide (p = q)) l.

Definition successors (p : node) : list node :=
  map (fun '(e, w') => (w', observe p.2 e)) (steps p.1).

Fixpoint explore (fuel : nat) (todo seen : list node) : list node :=
  match fuel with
  | O => seen
  | S fuel' =>
      match todo with
      | [] => seen
      | p :: todo' =>
          if memb p seen then explore fuel' todo' seen
          else explore fuel' (successors p ++ todo') (p :: seen)
      end
  end.

Definition explored : list node :=
  Eval vm_compute in explore (256 * 256) [(start, nothing_yet)] [].

(** Every step from a node of [R] is allowed and leads into [R]. *)
Definition closed (R : list node) : bool :=
  forallb (fun p : node =>
    forallb (fun '(e, w') => allowed p.2 e && memb (w', observe p.2 e) R)
      (steps p.1)) R.

(** *** Runs of the examples *)

(** One call of [sync] on an idle logger. *)
Definition one_sync : list event :=
  [SyncCall; CallerLocks; SetSync; NotifyWorkAdded; WaitHintQueueEmptied;
   ScanStart; ScanEnd IdlePass true; DrainerLocks; ClearSync;
   ScanStart; ScanEnd IdlePass true; DrainerLocks; NotifyHintQueueEmptied;
   TimedWait; SyncReturn].

(** A call of [sync] during which the thread is told to exit: the scan
    that follows the clearing of the request is left by the test of
    line 287, with nothing compressed. *)
Definition cut_scan : list event :=
  [SyncCall; CallerLocks; SetSync; NotifyWorkAdded; WaitHintQueueEmptied;
   ScanStart; ScanEnd IdlePass true; DrainerLocks; ClearSync;
   ScanStart; ExitRequested; ScanEnd ToldToExit true; DrainerLocks].

(** *** The compression thread on its own *)

(** The events of the compression thread. *)
Definition of_the_drainer (e : event) : bool :=
  is_drainer_event e || bool_decide (e = DrainerLocks)
  || bool_decide (e = TimedWaitEnds).

(** The step of the compression thread when every scan it starts ends
    in a pass that found no work, with nothing compressed. *)
Definition idle_step (w : world) : option (event * world) :=
  match drainer w with
  | DScan => Some (ScanEnd IdlePass true, set_drainer (DScanned true) w)
  | _ => head (drainer_steps w)
  end.

(** The run of those steps from [w] until the caller is woken. *)
Fixpoint drain_idle (fuel : nat) (w : world) : list event * world :=
  match fuel with
  | O => ([], w)
  | S fuel' =>
      if bool_decide (caller w = SWoken) then ([], w)
      else match idle_step w with
           | None => ([], w)
           | Some (e, w') =>
               let '(t, w'') := drain_idle fuel' w' in (e :: t, w'')
           end
  end.

(** From every node of [R] in which the caller waits and the thread has
    not been told to exit, that run ends, within [fuel] steps, in the
    drainer's [notify_one] that wakes the caller. *)
Definition all_woken (fuel : nat) (R : list node) : bool :=
  forallb (fun p : node =>
    compressionThreadShouldExit p.1
    || negb (bool_decide (caller p.1 = SWaiting))
    || (bool_decide (last (drain_idle fuel p.1).1 = Some NotifyHintQueueEmptied)
        && bool_decide (caller (drain_idle fuel p.1).2 = SWoken))) R.

End SyncProtocol.

(** ** Asynchronous output: [waitForAIO] and the end of the drainer loop *)

Module Aio.

(** [EINPROGRESS] of <errno.h> (Linux). *)
Definition EINPROGRESS : Z := 115.

(** [numAioWritesCompleted] is printed with [%u] by [printStats]: an
    unsigned 32-bit counter. *)
Definition to_u32 (z : Z) : Z := z mod 2 ^ 32.

(** What the drainer asks of the system, and what it reports on
    [stderr]; [ret] is what [aio_write] returned. *)
Inductive call : Type :=
| CallAioError
| CallAioSuspend
| CallAioReturn
| CallAioWrite (fildes buf nbytes ret : Z)
| CallWrite (fd buf nbytes : Z)
| Report (message : string).

(** The members of [FastLogger] behind the output: the flag and the
    counters, the two buffers (as addresses), the descriptor, and the
    fields of [aioCb] the code sets. *)
Record Writer : Type := mkWriter {
  hasOutstandingOperation : bool;
  numAioWritesCompleted : Z;
  totalBytesWritten : Z;
  compressingBuffer : Z;
  outputDoubleBuffer : Z;
  outputFd : Z;
  aio_fildes : Z;
  aio_buf : Z;
  aio_nbytes : Z;
  calls : list call
}.

Definition log (c : call) (w : Writer) : Writer :=
  mkWriter (hasOutstandingOperation w) (numAioWritesCompleted w)
    (totalBytesWritten w) (compressingBuffer w) (outputDoubleBuffer w)
    (outputFd w) (aio_fildes w) (aio_buf w) (aio_nbytes w) (calls w ++ [c]).

(** [++numAioWritesCompleted; hasOutstandingOperation = false;] *)
Definition reaped (w : Writer) : Writer :=
  mkWriter false (to_u32 (numAioWritesCompleted w + 1))
    (totalBytesWritten w) (compressingBuffer w) (outputDoubleBuffer w)
    (outputFd w) (aio_fildes w) (aio_buf w) (aio_nbytes w) (calls w).

(** What the system answers while one operation is reaped: the first
    [aio_error], [aio_suspend], the second [aio_error], [aio_return]. *)
Record Answers : Type := mkAnswers {
  error_first : Z;
  suspend_ret : Z;
  error_after : Z;
  return_value : Z
}.

(** [FastLogger::waitForAIO], lines 220-242. *)
Definition waitForAIO (a : Answers) (w : Writer) : Writer :=
  if hasOutstandingOperation w then
    let w1 := log CallAioError w in
    let w2 :=
      if error_first a =? EINPROGRESS then
        let w' := log CallAioSuspend w1 in
        if negb (suspend_ret a =? 0)
        then log (Report "LogCompressor's Posix AIO suspend operation failed") w'
        else w'
      else w1 in
    let w3 := log CallAioReturn (log CallAioError w2) in
    let w4 :=
      if negb (error_after a =? 0)
      then log (Report "LogCompressor's POSIX AIO failed") w3
      else if return_value a <? 0
      then log (Report "LogCompressor's Posix AIO Write operation failed") w3
      else w3 in
    reaped w4
  else w.

(** Lines 407-431 of [compressionThreadMain]: the same reap before a
    new write is submitted. *)
Definition reapBeforeWrite (a : Answers) (w : Writer) : Writer :=
  if hasOutstandingOperation w then
    let w1 := log CallAioError w in
    let w2 :=
      if error_first a =? EINPROGRESS then
        let w' := log CallAioSuspend w1 in
        if negb (suspend_ret a =? 0)
        then log (Report "LogCompressor's Posix AIO suspend operation failed") w'
        else w'
      else w1 in
    let w3 := log CallAioReturn (log CallAioError w2) in
    let w4 :=
      if negb (error_after a =? 0)
      then log (Report "LogCompressor's POSIX AIO failed") w3
      else if return_value a <? 0
      then log (Report "LogCompressor's Posix AIO Write failed") w3
      else w3 in
    reaped w4
  else w.

(** Lines 433-446: fill in [aioCb], count the bytes, submit, mark the
    operation outstanding and swap the two buffers. *)
Definition submit (aio_write_ret bytesToWrite : Z) (w : Writer) : Writer :=
  let w1 := log (CallAioWrite (outputFd w) (compressingBuffer w) bytesToWrite
                   aio_write_ret) w in
  let w2 := if aio_write_ret =? -1 then log (Report "Error at aio_write()") w1
            else w1 in
  mkWriter true (numAioWritesCompleted w2)
    (to_u64 (totalBytesWritten w2 + bytesToWrite))
    (outputDoubleBuffer w2) (compressingBuffer w2)
    (outputFd w2) (outputFd w) (compressingBuffer w) bytesToWrite (calls w2).

(** Lines 406-450: the output of one batch of [bytesToWrite] bytes.
    [USE_AIO] is a constant of FastLogger.h; [aio_write_ret] and
    [write_ret] are what [aio_write] and [write] return. *)
Definition outputBatch (USE_AIO : bool) (a : Answers)
    (aio_write_ret write_ret bytesToWrite : Z) (w : Writer) : Writer :=
  if USE_AIO then submit aio_write_ret bytesToWrite (reapBeforeWrite a w)
  else
    let w1 := log (CallWrite (outputFd w) (compressingBuffer w) bytesToWrite) w in
    if negb (bytesToWrite =? write_ret) then log (Report "Error dumping log") w1
    else w1.

(** [while (aio_error(&aioCb) == EINPROGRESS);] of line 464; [polls] are
    the answers of [aio_error], [None] when all of them are
    [EINPROGRESS]. *)
Fixpoint busyWait (polls : list Z) (w : Writer) : option Writer :=
  match polls with
  | [] => None
  | e :: polls' =>
      let w' := log CallAioError w in
      if e =? EINPROGRESS then busyWait polls' w' else Some w'
  end.

(** Lines 461-477 of [compressionThreadMain]: the reap when the thread
    ends. *)
Definition reapAtExit (polls : list Z) (err ret : Z) (w : Writer)
    : option Writer :=
  if hasOutstandingOperation w then
    match busyWait polls w with
    | None => None
    | Some w1 =>
        let w3 := log CallAioReturn (log CallAioError w1) in
        let w4 :=
          if negb (err =? 0)
          then log (Report "LogCompressor's POSIX AIO failed") w3
          else if ret <? 0
          then log (Report "LogCompressor's Posix AIO Write operation failed") w3
          else w3 in
        Some (reaped w4)
    end
  else Some w.

(** What the output goes through between two points of a run: batches
    written by the drainer and calls of [waitForAIO]. *)
Inductive step : Type :=
| Batch (a : Answers) (aio_write_ret write_ret bytesToWrite : Z)
| Wait (a : Answers).

Definition run (USE_AIO : bool) (steps : list step) (w : Writer) : Writer :=
  fold_left
    (fun w s =>
       match s with
       | Batch a aw wr n => outputBatch USE_AIO a aw wr n w
       | Wait a => waitForAIO a w
       end) steps w.

(** *** The order of the calls *)

(** Reading the calls in order: whether each was in place (a write is
    submitted only with no operation in flight; [aio_error],
    [aio_suspend] and [aio_return] are asked only about one in flight),
    and whether an operation is in flight at the end.  An [aio_write]
    that returns -1 has queued nothing. *)
Definition watch (s : bool * bool) (c : call) : bool * bool :=
  match c with
  | CallAioWrite _ _ _ ret => (s.1 && negb s.2, negb (ret =? -1))
  | CallAioReturn => (s.1 && s.2, false)
  | CallAioError | CallAioSuspend => (s.1 && s.2, s.2)
  | _ => s
  end.

Definition paired (cs : list call) : bool := (fold_left watch cs (true, false)).1.

Definition in_flight (cs : list call) : bool := (fold_left watch cs (true, false)).2.

(** The bytes handed to [aio_write] and the operations reaped. *)
Definition tally (s : Z * Z) (c : call) : Z * Z :=
  match c with
  | CallAioWrite _ _ n _ => (s.1 + n, s.2)
  | CallAioReturn => (s.1, s.2 + 1)
  | _ => s
  end.

Definition bytes_submitted (cs : list call) : Z := (fold_left tally cs (0, 0)).1.

Definition reaps (cs : list call) : Z := (fold_left tally cs (0, 0)).2.

(** A logger that has written nothing yet, with its two buffers. *)
Definition unused : Writer := mkWriter false 0 0 65536 131072 3 0 0 0 [].

Definition quick : Answers := mkAnswers 0 0 0 512.

Definition slow : Answers := mkAnswers 115 0 5 (-1).


(** The calls made so far are in order and [hasOutstandingOperation]
    tells whether an operation is in flight. *)
Definition in_order (w : Writer) : Prop :=
  fold_left watch (calls w) (true, false) = (true, hasOutstandingOperation w).

(** The two counters agree, as machine integers, with the calls made. *)
Definition counted (w : Writer) : Prop :=
  to_u64 (totalBytesWritten w) = to_u64 (bytes_submitted (calls w)) /\
  to_u32 (numAioWritesCompleted w) = to_u32 (reaps (calls w)).

(** The two buffers are distinct and the one an outstanding operation
    writes from is [outputDoubleBuffer]. *)
Definition double_buffered (w : Writer) : Prop :=
  compressingBuffer w <> outputDoubleBuffer w /\
  (hasOutstandingOperation w = true -> aio_buf w = outputDoubleBuffer w).

(** The batch is not one whose [aio_write] fails. *)
Definition submitted (s : step) : bool :=
  match s with
  | Batch _ aio_write_ret _ _ => negb (aio_write_ret =? -1)
  | Wait _ => true
  end.

(** Two batches and a call of [waitForAIO], every [aio_write] accepted. *)
Definition steadyOutput : list step :=
  [Batch quick 0 0 512; Batch slow 0 0 1024; Wait slow].

(** Three batches and a call of [waitForAIO]. *)
Definition someOutput : list step :=
  [Batch quick 0 0 512; Batch slow 0 0 1024; Batch quick (-1) 0 512; Wait slow].

End Aio.

(** * Properties *)

(** ** Machine integers *)

Lemma to_u64_small z : 0 <= z < u64_modulus -> to_u64 z = z.
Proof. intros H. unfold to_u64. now apply Z.mod_small. Qed.

Lemma to_u64_range z : 0 <= to_u64 z < u64_modulus.
Proof. unfold to_u64, u64_modulus. apply Z.mod_pos_bound. lia. Qed.

Lemma to_u64_not_positive z : (to_u64 z >? 0) = false -> to_u64 z = 0.
Proof. pose proof (to_u64_range z). lia. Qed.

(** ** The staging buffer *)

Module StagingFacts.
Import Staging.

Section Ring.

Variable SIZE : Z.

Lemma reserveIteration_storage n blocking sb :
  match reserveIteration SIZE n blocking sb with
  | Return _ sb' | LoopAgain sb' =>
      storage sb' = storage sb /\ contents sb' = contents sb /\
      consumerPos sb' = consumerPos sb /\
      shouldDeallocate sb' = shouldDeallocate sb
  end.
Proof.
  unfold reserveIteration, recompute; simpl.
  destruct (consumerPos sb <=? producerPos sb); simpl.
  - destruct (_ >? n); simpl; [auto|].
    destruct (negb blocking && _); simpl; auto.
  - destruct (negb blocking && _); simpl; auto.
Qed.

(** Without blocking the call returns after a single load. *)
Lemma nonblocking_returns n c loads sb :
  exists r sb', reserveSpaceInternal SIZE (c :: loads) n false sb = Some (r, sb').
Proof.
  simpl. destruct (minFreeSpace sb <=? n); [|eauto].
  unfold reserveIteration, recompute; simpl.
  destruct (c <=? producerPos sb); simpl.
  - destruct (to_u64 (storage sb + SIZE - producerPos sb) >? n); simpl; [eauto|].
    destruct (to_u64 (c - storage sb) <=? n) eqn:E; simpl; [eauto|].
    destruct loads; simpl; rewrite E; eauto.
  - destruct (to_u64 (c - producerPos sb) <=? n) eqn:E; simpl; [eauto|].
    destruct loads; simpl; rewrite E; eauto.
Qed.

(** A pointer is returned only with a cache that strictly exceeds the
    request. *)
Lemma reserve_success_exceeds loads n blocking : forall sb p sb',
  reserveSpaceInternal SIZE loads n blocking sb = Some (Some p, sb') ->
  p = producerPos sb' /\ minFreeSpace sb' > n.
Proof.
  induction loads as [|c loads IH]; intros sb p sb'; simpl.
  - destruct (minFreeSpace sb <=? n) eqn:E; [discriminate|].
    intros [= <- <-]. split; [reflexivity|lia].
  - destruct (minFreeSpace sb <=? n) eqn:E.
    + unfold reserveIteration, recompute; simpl.
      destruct (c <=? producerPos sb); simpl.
      * destruct (to_u64 (storage sb + SIZE - producerPos sb) >? n) eqn:E1; simpl.
        { intros [= <- <-]. simpl. split; [reflexivity|lia]. }
        destruct (negb blocking && _); simpl; [discriminate|]. apply IH.
      * destruct (negb blocking && _); simpl; [discriminate|]. apply IH.
    + intros [= <- <-]. split; [reflexivity|lia].
Qed.

(** With both positions equal [peek] reports nothing to read. *)
Lemma peek_equal_positions sb :
  producerPos sb = consumerPos sb -> (peek sb).1.2 = 0.
Proof.
  intros E. unfold peek. rewrite E, Z.ltb_irrefl. simpl.
  now rewrite Z.sub_diag.
Qed.

(** What a failed call without blocking leaves behind: nothing but the
    producer's wrap and its cache differ. *)
Lemma nonblocking_null_frame n sb sb' :
  reserveSpaceInternal SIZE (idle 1 sb) n false sb = Some (None, sb') ->
  storage sb' = storage sb /\ contents sb' = contents sb /\
  consumerPos sb' = consumerPos sb /\
  shouldDeallocate sb' = shouldDeallocate sb /\
  ((producerPos sb' = producerPos sb /\
    endOfRecordedSpace sb' = endOfRecordedSpace sb) \/
   (producerPos sb' = storage sb /\
    endOfRecordedSpace sb' = producerPos sb)).
Proof.
  unfold idle; simpl.
  destruct (minFreeSpace sb <=? n); [|discriminate].
  unfold reserveIteration, recompute; simpl.
  destruct (consumerPos sb <=? producerPos sb); simpl.
  - destruct (_ >? n); simpl; [discriminate|].
    destruct (to_u64 (consumerPos sb - storage sb) <=? n) eqn:E; simpl.
    + intros [= <-]. simpl. tauto.
    + rewrite E. discriminate.
  - destruct (to_u64 (consumerPos sb - producerPos sb) <=? n) eqn:E; simpl.
    + intros [= <-]. simpl. tauto.
    + rewrite E. discriminate.
Qed.

(** Both functions keep a well-formed buffer well-formed. *)
Lemma reserveIteration_well_formed n blocking sb :
  well_formed SIZE sb ->
  match reserveIteration SIZE n blocking sb with
  | Return _ sb' | LoopAgain sb' => well_formed SIZE sb'
  end.
Proof.
  intros (H0 & Hm & Hp & Hc & He). unfold in_ring in *.
  unfold reserveIteration, recompute; simpl.
  destruct (consumerPos sb <=? producerPos sb) eqn:E; simpl.
  - destruct (_ >? n); simpl.
    + unfold well_formed, in_ring; simpl. repeat split; try lia.
    + destruct (negb blocking && _); simpl;
        unfold well_formed, in_ring; simpl; repeat split; lia.
  - destruct (negb blocking && _); simpl;
      unfold well_formed, in_ring; simpl; repeat split; lia.
Qed.

Lemma peek_well_formed sb :
  well_formed SIZE sb -> well_formed SIZE (peek sb).2.
Proof.
  intros (H0 & Hm & Hp & Hc & He). unfold in_ring in *. unfold peek.
  destruct (producerPos sb <? consumerPos sb) eqn:E; simpl.
  - destruct (_ >? 0); simpl;
      unfold well_formed, in_ring; simpl; repeat split; lia.
  - unfold well_formed, in_ring; simpl; repeat split; lia.
Qed.

(** The wrap is taken whatever [consumerPos] is.  With the consumer at
    the start of [storage] and committed bytes ahead of it, a
    reservation that does not fit the tail puts [producerPos] on
    [consumerPos]: a call without blocking fails and leaves a buffer
    that [peek] finds empty. *)
Lemma wrap_onto_consumer n sb :
  well_formed SIZE sb ->
  minFreeSpace sb <= n ->
  consumerPos sb = storage sb ->
  storage sb + SIZE - producerPos sb <= n ->
  0 <= n ->
  exists sb',
    reserveSpaceInternal SIZE (idle 1 sb) n false sb = Some (None, sb') /\
    producerPos sb' = consumerPos sb' /\
    (peek sb').1.2 = 0.
Proof.
  intros (H0 & Hm & Hp & Hc & He) Hmin Hcs Htail Hn. unfold in_ring in *.
  unfold idle; simpl.
  replace (minFreeSpace sb <=? n) with true by lia.
  unfold reserveIteration, recompute; simpl.
  replace (consumerPos sb <=? producerPos sb) with true by lia.
  rewrite (to_u64_small (storage sb + SIZE - producerPos sb)) by lia.
  replace (storage sb + SIZE - producerPos sb >? n) with false by lia.
  simpl. rewrite Hcs, Z.sub_diag.
  change (to_u64 0) with 0.
  replace (0 <=? n) with true by lia. simpl.
  eexists. split; [reflexivity|]. simpl. split; [reflexivity|].
  unfold peek; simpl. rewrite Z.ltb_irrefl. simpl. now rewrite Z.sub_diag.
Qed.

(** C1. The slow path of the reservation is the algorithm of the
    specification: on a ring that fits the address space, with the
    producer's position and every value loaded from [consumerPos] inside
    the ring, [reserveSpaceInternal] returns the same pointer (or
    [nullptr], or keeps spinning) and leaves the same buffer as the
    three steps of the specification run on plain integers; the loop it
    goes round is the one guarded by [minFreeSpace <= n]. *)
Theorem reserveSpaceInternal_follows_spec loads n blocking : forall sb,
  0 <= storage sb -> storage sb + SIZE < u64_modulus ->
  in_ring SIZE sb (producerPos sb) ->
  Forall (in_ring SIZE sb) loads ->
  reserveSpaceInternal SIZE loads n blocking sb
  = slowPathSpec SIZE loads n blocking sb.
Proof.
  induction loads as [|c loads IH]; intros sb H0 Hm Hp Hl; simpl; [reflexivity|].
  destruct (minFreeSpace sb <=? n); [|reflexivity].
  inversion Hl as [|? ? Hc Hl']; subst.
  unfold in_ring in Hp, Hc.
  unfold reserveIteration, recompute; simpl.
  destruct (c <=? producerPos sb) eqn:Ec; simpl.
  - rewrite (to_u64_small (storage sb + SIZE - producerPos sb)) by lia.
    destruct (storage sb + SIZE - producerPos sb >? n); simpl; [reflexivity|].
    rewrite (to_u64_small (c - storage sb)) by lia.
    rewrite (andb_comm (negb blocking)).
    destruct ((c - storage sb <=? n) && negb blocking); [reflexivity|].
    apply IH; simpl; unfold in_ring; simpl; auto; lia.
  - rewrite (to_u64_small (c - producerPos sb)) by lia.
    rewrite (andb_comm (negb blocking)).
    destruct ((c - producerPos sb <=? n) && negb blocking); [reflexivity|].
    apply IH; simpl; unfold in_ring; simpl; auto.
Qed.

(** On a well-formed buffer [peek] does one of two things.  When
    the producer has wrapped ([producerPos < consumerPos]) and nothing is
    left before [endOfRecordedSpace], it moves [consumerPos] to the
    start of [storage] and returns the run from [storage] to
    [producerPos].  Otherwise it changes nothing and returns the run
    that starts at [consumerPos]: up to [producerPos], or up to
    [endOfRecordedSpace] when the producer has wrapped. *)
Theorem peek_wraps_or_returns_run sb :
  well_formed SIZE sb ->
  if (producerPos sb <? consumerPos sb)
     && (endOfRecordedSpace sb =? consumerPos sb)
  then peek sb = (storage sb, producerPos sb - storage sb,
                  set_consumerPos (storage sb) sb)
  else peek sb = (consumerPos sb,
                  (if consumerPos sb <=? producerPos sb
                   then producerPos sb - consumerPos sb
                   else endOfRecordedSpace sb - consumerPos sb),
                  sb).
Proof.
  intros (H0 & Hm & Hp & Hc & He). unfold in_ring in *. unfold peek.
  destruct (producerPos sb <? consumerPos sb) eqn:Ew; simpl.
  - specialize (He ltac:(lia)).
    rewrite (to_u64_small (endOfRecordedSpace sb - consumerPos sb)) by lia.
    destruct (endOfRecordedSpace sb =? consumerPos sb) eqn:Ee.
    + replace (endOfRecordedSpace sb - consumerPos sb >? 0) with false by lia.
      rewrite to_u64_small by lia. reflexivity.
    + replace (endOfRecordedSpace sb - consumerPos sb >? 0) with true by lia.
      replace (consumerPos sb <=? producerPos sb) with false by lia.
      reflexivity.
  - replace (consumerPos sb <=? producerPos sb) with true by lia.
    rewrite to_u64_small by lia. reflexivity.
Qed.

End Ring.

(** *** On the ring of 16 bytes *)

Lemma reserveSpaceInternal_follows_spec_witness :
  (0 <= storage ring16 /\ storage ring16 + 16 < u64_modulus /\
   in_ring 16 ring16 (producerPos ring16) /\
   Forall (in_ring 16 ring16) (idle 2 ring16)) /\
  reserveSpaceInternal 16 (idle 2 ring16) 8 true ring16
  = slowPathSpec 16 (idle 2 ring16) 8 true ring16.
Proof.
  assert (H0 : 0 <= storage ring16) by (simpl; lia).
  assert (Hm : storage ring16 + 16 < u64_modulus) by (vm_compute; reflexivity).
  assert (Hp : in_ring 16 ring16 (producerPos ring16))
    by (unfold in_ring; simpl; lia).
  assert (Hl : Forall (in_ring 16 ring16) (idle 2 ring16))
    by (repeat constructor; unfold in_ring; simpl; lia).
  split; [auto|].
  exact (reserveSpaceInternal_follows_spec 16 (idle 2 ring16) 8 true ring16
           H0 Hm Hp Hl).
Defined.

Lemma peek_wraps_or_returns_run_witness :
  well_formed 16 wrapped16 /\
  peek wrapped16 = (4096, 4, set_consumerPos 4096 wrapped16).
Proof.
  assert (W : well_formed 16 wrapped16).
  { unfold well_formed, in_ring; simpl.
    repeat split; first [lia | vm_compute; reflexivity]. }
  split; [exact W|].
  exact (peek_wraps_or_returns_run 16 wrapped16 W).
Defined.

(** The ring of the examples is one the producer fills by itself: a
    reservation of ten bytes on a new ring takes the fast exit, and the
    commit leaves [ring16]. *)
Lemma ring16_reachable :
  reserveSpaceInternal 16 [] 10 true fresh16 = Some (Some 4096, fresh16) /\
  finishReservation 4096 [1; 2; 3; 4; 5; 6; 7; 8; 9; 10] fresh16 = ring16.
Proof. split; reflexivity. Qed.

(** C2. A reservation that succeeds can leave both positions equal on
    a ring that is not empty.  [ring16] holds ten committed bytes that
    the drainer has not consumed ([peek] reports all ten).  A blocking
    reservation of 8 bytes, the drainer idle, wraps in its first pass
    although [consumerPos] is at the start of [storage], and succeeds in
    its second: it returns [storage] with [producerPos = consumerPos],
    [peek] now reports nothing, and the span handed to the producer is
    the first eight unread bytes. *)
Theorem blocking_reserve_equal_positions_not_empty :
  well_formed 16 ring16 /\
  peek ring16 = (4096, 10, ring16) /\
  readable ring16 = [1; 2; 3; 4; 5; 6; 7; 8; 9; 10] /\
  exists sb',
    reserveSpaceInternal 16 (idle 2 ring16) 8 true ring16
    = Some (Some 4096, sb') /\
    producerPos sb' = consumerPos sb' /\
    consumerPos sb' = consumerPos ring16 /\
    (peek sb').1.2 = 0 /\
    span sb' 4096 (4096 + 8) = [1; 2; 3; 4; 5; 6; 7; 8].
Proof.
  split; [|split; [reflexivity|split; [reflexivity|]]].
  - unfold well_formed, in_ring; simpl.
    repeat split; first [lia | vm_compute; reflexivity].
  - eexists. split; [vm_compute; reflexivity|].
    repeat split; reflexivity.
Qed.

(** C3. [peek] can report a run that is not there.  The drainer peeks
    the ten bytes of [ring16] and goes to compress them.  Meanwhile a
    reservation of 8 bytes wraps onto [consumerPos] and succeeds (the
    defect of C2), the producer commits its 8 bytes, and a second
    reservation of 8 bytes wraps again, leaving [endOfRecordedSpace] at
    [storage + 8]; the drainer consumes its ten bytes between the two
    loads of that call.  In the buffer that results the producer has
    wrapped, [consumerPos] is past [endOfRecordedSpace] and nothing is
    readable; [peek] does not move [consumerPos] to the start of
    [storage]: the difference of line 640 wraps, and it returns
    [consumerPos] with [2^64 - 2] bytes to read. *)
Theorem peek_past_endOfRecordedSpace :
  peek ring16 = (4096, 10, ring16) /\
  (exists sb1,
     reserveSpaceInternal 16 (idle 2 ring16) 8 true ring16
     = Some (Some 4096, sb1) /\
     reserveSpaceInternal 16
       [consumerPos sb1; consumerPos (Drain.consume 10 sb1)] 8 true
       (finishReservation 4096 [11; 12; 13; 14; 15; 16; 17; 18] sb1)
     = Some (Some 4096, overrun16)) /\
  producerPos overrun16 < consumerPos overrun16 /\
  endOfRecordedSpace overrun16 < consumerPos overrun16 /\
  readable overrun16 = [] /\
  peek overrun16 = (consumerPos overrun16, 2 ^ 64 - 2, overrun16).
Proof.
  split; [reflexivity|]. split.
  - eexists. split; [vm_compute; reflexivity|]. vm_compute. reflexivity.
  - simpl. repeat split; try lia; vm_compute; reflexivity.
Qed.

(** C10. A failed reservation can lose committed data.  On [ring16],
    ten bytes unread, a reservation of 8 bytes without blocking returns
    [nullptr].  It leaves [consumerPos] and the bytes of [storage]
    alone, but its wrap puts [producerPos] on [consumerPos]: the
    readable region is empty, [peek] reports nothing, and the next
    reservation of 8 bytes is given the start of [storage], where the
    unread bytes are. *)
Theorem failed_reserve_hides_unread :
  readable ring16 = [1; 2; 3; 4; 5; 6; 7; 8; 9; 10] /\
  exists sb',
    reserveSpaceInternal 16 (idle 1 ring16) 8 false ring16 = Some (None, sb') /\
    consumerPos sb' = consumerPos ring16 /\
    contents sb' = contents ring16 /\
    readable sb' = [] /\
    (peek sb').1.2 = 0 /\
    exists sb'',
      reserveSpaceInternal 16 (idle 1 sb') 8 false sb' = Some (Some 4096, sb'').
Proof.
  split; [reflexivity|].
  eexists. split; [vm_compute; reflexivity|].
  repeat split; try reflexivity.
  eexists. vm_compute; reflexivity.
Qed.

End StagingFacts.

(** ** The drainer *)

Module DrainFacts.
Import Staging Drain.

Section Scan.

Variable OUTPUT_BUFFER_SIZE : Z.
Variable sizeofEntry : Z.
Variable entryAt : StagingBuffer -> Z -> UncompressedLogEntry.
Variable compressMetadata : UncompressedLogEntry -> Z -> Z -> Z -> Z.
Variable compressFnArray : Z -> UncompressedLogEntry -> Z -> Z.

Local Abbreviation compressEntries :=
  (compressEntries OUTPUT_BUFFER_SIZE sizeofEntry entryAt compressMetadata
     compressFnArray).
Local Abbreviation scanStep :=
  (scanStep OUTPUT_BUFFER_SIZE sizeofEntry entryAt compressMetadata
     compressFnArray).
Local Abbreviation scanLoop :=
  (scanLoop OUTPUT_BUFFER_SIZE sizeofEntry entryAt compressMetadata
     compressFnArray).

Local Abbreviation appends_checked :=
  (appends_checked OUTPUT_BUFFER_SIZE compressMetadata).

Lemma appends_checked_refl d : appends_checked d d.
Proof. exists []. rewrite app_nil_r. auto. Qed.

Lemma appends_checked_trans d1 d2 d3 :
  appends_checked d1 d2 -> appends_checked d2 d3 -> appends_checked d1 d3.
Proof.
  intros (n1 & E1 & F1) (n2 & E2 & F2). exists (n1 ++ n2). split.
  - rewrite E2, E1, app_assoc. reflexivity.
  - apply Forall_app. auto.
Qed.

Lemma appends_checked_same_events d d' :
  events d' = events d -> appends_checked d d'.
Proof. intros E. exists []. rewrite app_nil_r. auto. Qed.

Lemma compressEntries_events fuel : forall sb peekPosition readableBytes d,
  appends_checked d (compressEntries fuel sb peekPosition readableBytes d).2.
Proof.
  induction fuel as [|fuel IH]; intros sb pp rb d; simpl.
  - apply appends_checked_refl.
  - destruct (rb >? 0); [|apply appends_checked_refl].
    destruct (rb <? sizeofEntry); [apply appends_checked_refl|].
    destruct (rb <? entrySize (entryAt sb pp)); [apply appends_checked_refl|].
    destruct (worstCase (entryAt sb pp) >? OUTPUT_BUFFER_SIZE - out d) eqn:E.
    + now apply appends_checked_same_events.
    + eapply appends_checked_trans; [|apply IH].
      eexists [_]. split; [reflexivity|].
      constructor; [|constructor]. simpl. split; [lia|eauto].
Qed.

Lemma calls_only fuel : forall sb peekPosition readableBytes d,
  exists new,
    events (compressEntries fuel sb peekPosition readableBytes d).2
    = events d ++ new /\ Forall is_call new.
Proof.
  induction fuel as [|fuel IH]; intros sb pp rb d; simpl.
  - exists []. now rewrite app_nil_r.
  - destruct (rb >? 0); [|exists []; now rewrite app_nil_r].
    destruct (rb <? sizeofEntry); [exists []; now rewrite app_nil_r|].
    destruct (rb <? entrySize (entryAt sb pp));
      [exists []; now rewrite app_nil_r|].
    destruct (_ >? _).
    + exists []. simpl. now rewrite app_nil_r.
    + match goal with
      | |- context [compressEntries ?f ?s ?p ?r ?x] =>
          destruct (IH s p r x) as (new & E & F)
      end.
      eexists (_ :: new). split.
      * rewrite E. simpl. rewrite <- app_assoc. reflexivity.
      * constructor; [exact I|exact F].
Qed.

Lemma advance_events d : events (advance d).2 = events d.
Proof.
  unfold advance. simpl.
  destruct (_ =? _)%nat; [|reflexivity].
  destruct (negb (workFound d)); reflexivity.
Qed.

Lemma eraseBuffer_events sb d :
  events (eraseBuffer sb d) = events d ++ [Destroy sb].
Proof.
  unfold eraseBuffer, log_event. simpl.
  destruct (_ =? _)%nat; simpl; [|reflexivity].
  destruct (_ =? _)%nat; reflexivity.
Qed.

Lemma scanStep_events fuel d : appends_checked d (scanStep fuel d).2.
Proof.
  unfold Drain.scanStep.
  destruct (threadBuffers d !! i d) as [sb|]; [|apply appends_checked_refl].
  destruct (peek sb) as [[pp rb] sb1].
  destruct (rb >? 0).
  - pose proof (compressEntries_events fuel sb1 pp rb (set_workFound true d)) as H.
    destruct (compressEntries fuel sb1 pp rb (set_workFound true d))
      as [[[st sb2] unread] d2].
    simpl in H.
    assert (H4 : forall d4, events d4 = events d2 -> appends_checked d d4).
    { intros d4 E. eapply appends_checked_trans; [exact H|].
      now apply appends_checked_same_events. }
    destruct st; simpl; try (apply H4; reflexivity).
    apply H4. now rewrite advance_events.
  - destruct (checkCanDelete sb1); simpl.
    + exists [Destroy sb1]. split; [apply eraseBuffer_events|].
      constructor; [exact I|constructor].
    + apply appends_checked_same_events. now rewrite advance_events.
Qed.

Lemma scanLoop_events fuel : forall d, appends_checked d (scanLoop fuel d).2.
Proof.
  induction fuel as [|fuel IH]; intros d; simpl; [apply appends_checked_refl|].
  destruct (_ && _); [|apply appends_checked_refl].
  pose proof (scanStep_events fuel d) as H.
  destruct (scanStep fuel d) as [st d']. simpl in H.
  destruct st; simpl; try exact H.
  eapply appends_checked_trans; [exact H|apply IH].
Qed.


(** Consuming no more than [peek] has reported keeps the buffer
    well-formed. *)
Lemma consume_well_formed size sb k :
  well_formed size sb ->
  0 <= k <= (peek sb).1.2 ->
  well_formed size (consume k (peek sb).2).
Proof.
  intros (H0 & Hm & Hp & Hc & He). unfold in_ring in *.
  unfold peek, consume.
  destruct (producerPos sb <? consumerPos sb) eqn:E; simpl.
  - specialize (He ltac:(lia)).
    rewrite (to_u64_small (endOfRecordedSpace sb - consumerPos sb)) by lia.
    destruct (_ >? 0) eqn:E0; simpl.
    + intros Hk. unfold well_formed, in_ring; simpl. repeat split; lia.
    + rewrite to_u64_small by lia.
      intros Hk. unfold well_formed, in_ring; simpl. repeat split; lia.
  - rewrite to_u64_small by lia.
    intros Hk. unfold well_formed, in_ring; simpl. repeat split; lia.
Qed.

(** A buffer is destroyed only in a step whose [peek] on it reported
    nothing to read and whose [checkCanDelete] on it held. *)
Lemma destroy_needs_empty_and_deletable fuel d sb :
  In (Destroy sb) (events (scanStep fuel d).2) ->
  In (Destroy sb) (events d) \/
  exists sb0 p,
    threadBuffers d !! i d = Some sb0 /\ peek sb0 = (p, 0, sb) /\
    checkCanDelete sb = true.
Proof.
  unfold Drain.scanStep.
  destruct (threadBuffers d !! i d) as [sb0|] eqn:L; [|auto].
  destruct (peek sb0) as [[pp rb] sb1] eqn:P.
  destruct (rb >? 0) eqn:R.
  - pose proof (calls_only fuel sb1 pp rb (set_workFound true d)) as H.
    destruct (compressEntries fuel sb1 pp rb (set_workFound true d))
      as [[[st sb2] unread] d2].
    simpl in H. destruct H as (new & E & F).
    assert (H4 : forall d4, events d4 = events d2 ->
                 In (Destroy sb) (events d4) -> In (Destroy sb) (events d)).
    { intros d4 E4. rewrite E4, E, in_app_iff.
      intros [?|Hin]; [assumption|]. rewrite Forall_forall in F.
      apply list_elem_of_In in Hin. destruct (F _ Hin). }
    destruct st; simpl; intros Hin; left;
      (eapply H4; [|exact Hin]); try reflexivity.
    now rewrite advance_events.
  - assert (rb = 0) as ->.
    { unfold peek in P. destruct (_ <? _); [destruct (_ >? 0) eqn:R'|];
        injection P as <- <- <-; try lia;
        now apply to_u64_not_positive. }
    destruct (checkCanDelete sb1) eqn:C; cbn [snd].
    + rewrite eraseBuffer_events, in_app_iff. simpl.
      intros [?|[[= <-]|[]]]; [auto|]. right. eauto.
    + rewrite advance_events. simpl. auto.
Qed.

(** After an erase the scan index is a valid index again, unless the
    registry is empty. *)
Lemma eraseBuffer_keeps_i_valid sb d :
  valid_index (i d) d ->
  threadBuffers (eraseBuffer sb d) = [] \/
  valid_index (i (eraseBuffer sb d)) (eraseBuffer sb d).
Proof.
  unfold valid_index, eraseBuffer. simpl. intros Hi.
  pose proof (length_delete (threadBuffers d) (i d)) as Hlen.
  assert (is_Some (threadBuffers d !! i d)) as Hs
    by now apply lookup_lt_is_Some.
  specialize (Hlen Hs).
  destruct (i d =? length (delete (i d) (threadBuffers d)))%nat eqn:E; simpl.
  - destruct (lastStagingBufferChecked d =? i d)%nat; simpl;
      (destruct (delete (i d) (threadBuffers d)); simpl;
       [left; reflexivity|right; lia]).
  - apply Nat.eqb_neq in E. right. lia.
Qed.

(** So is [lastStagingBufferChecked], as long as it is not ahead of
    the buffer erased. *)
Lemma eraseBuffer_keeps_last_valid_if_behind sb d :
  valid_index (i d) d ->
  (lastStagingBufferChecked d <= i d)%nat ->
  threadBuffers (eraseBuffer sb d) = [] \/
  valid_index (lastStagingBufferChecked (eraseBuffer sb d)) (eraseBuffer sb d).
Proof.
  unfold valid_index, eraseBuffer. simpl. intros Hi Hl.
  pose proof (length_delete (threadBuffers d) (i d)) as Hlen.
  assert (is_Some (threadBuffers d !! i d)) as Hs
    by now apply lookup_lt_is_Some.
  specialize (Hlen Hs).
  destruct (i d =? length (delete (i d) (threadBuffers d)))%nat eqn:E; simpl.
  - destruct (lastStagingBufferChecked d =? i d)%nat eqn:E'; simpl.
    + destruct (delete (i d) (threadBuffers d)); simpl;
        [left; reflexivity|right; lia].
    + apply Nat.eqb_eq in E. apply Nat.eqb_neq in E'. right. lia.
  - apply Nat.eqb_neq in E. right. lia.
Qed.

(** C9. The erase can leave [lastStagingBufferChecked] past the end
    of the registry.  In [midPass] the scan started at buffer 1 and has
    come round to buffer 0, an empty ring whose owner has exited: the
    step destroys it, and of the two indices only [i] is a valid index
    into the one buffer that remains. *)
Theorem erase_leaves_lastStagingBufferChecked_past_end fuel :
  valid_index (i midPass) midPass /\
  valid_index (lastStagingBufferChecked midPass) midPass /\
  scanStep fuel midPass = (Running, stranded) /\
  threadBuffers stranded = [quiet] /\
  events stranded = events midPass ++ [Destroy departed] /\
  valid_index (i stranded) stranded /\
  ~ valid_index (lastStagingBufferChecked stranded) stranded.
Proof.
  unfold valid_index. simpl.
  repeat split; try lia; try reflexivity.
Qed.

(** From there the scan never completes a pass: [i] cannot meet
    [lastStagingBufferChecked] again, and with the ring that remains
    silent the loop does not end. *)
Lemma stranded_scan_never_ends fuel :
  scanLoop fuel stranded = (OutOfFuel, stranded).
Proof.
  induction fuel as [|fuel IH]; simpl; [reflexivity|].
  replace (scanStep fuel stranded) with (Running, stranded) by reflexivity.
  exact IH.
Qed.

End Scan.

(** [midPass] arises in three scans.  The first comes on the record of
    buffer 1 with too little room left in the output and stops there,
    [lastStagingBufferChecked = 1]; the second compresses the record and
    ends after a pass without work; the owner of buffer 0 exits; the
    third starts at buffer 1, finds nothing, and steps to buffer 0. *)
Lemma midPass_arises :
  exists d1 d2,
    scanLoop 1024 16 readRecord24 meta3 args20 10 firstPass = (Stopped, d1) /\
    lastStagingBufferChecked d1 = 1%nat /\
    scanLoop 1024 16 readRecord24 meta3 args20 10 (startScan d1)
    = (Stopped, d2) /\
    scanStep 1024 16 readRecord24 meta3 args20 10 (startScan (ownerExits 0 d2))
    = (Running, midPass).
Proof.
  do 2 eexists. split; [vm_compute; reflexivity|].
  split; [reflexivity|].
  split; [vm_compute; reflexivity|].
  vm_compute; reflexivity.
Qed.


(** *** Writing a batch *)

Section Output.

Variable FILE_PARAMS : Z.
Hypothesis direct : Z.land FILE_PARAMS O_DIRECT <> 0.

(** With direct I/O the length written is a multiple of the block. *)
Lemma padBatch_block_multiple buf out pad :
  0 <= out -> (padBatch FILE_PARAMS buf out pad).1.2 mod 512 = 0.
Proof.
  intros Hout. unfold padBatch.
  destruct (Z.land FILE_PARAMS O_DIRECT =? 0) eqn:E; [lia|]. simpl.
  rewrite Z.rem_mod_nonneg by lia.
  destruct (out mod 512 =? 0) eqn:E0; simpl; [lia|].
  pose proof (Z.div_mod out 512 ltac:(lia)) as D.
  replace (out + 512 - out mod 512) with ((out / 512 + 1) * 512) by lia.
  apply Z.mod_mul. lia.
Qed.

(** The pad counter grows by the bytes added to the length. *)
Lemma padBatch_counts_pad buf out pad :
  0 <= pad < u64_modulus ->
  (padBatch FILE_PARAMS buf out pad).2
  = to_u64 (pad + ((padBatch FILE_PARAMS buf out pad).1.2 - out)).
Proof.
  intros Hpad. unfold padBatch.
  destruct (Z.land FILE_PARAMS O_DIRECT =? 0) eqn:E; [lia|]. simpl.
  destruct (Z.rem out 512 =? 0); simpl.
  - rewrite Z.sub_diag, Z.add_0_r. symmetry. now apply to_u64_small.
  - f_equal. lia.
Qed.

End Output.

(** C5. The pad is not all zeros.  A batch of 100 bytes in a buffer
    that holds the bytes of an earlier batch, direct I/O on: 512 bytes
    are to be written and 412 pad bytes are counted, but [memset] has
    cleared only the 100 bytes after the cursor, and the other 312 pad
    bytes are the old ones. *)
Theorem padBatch_leaves_stale_bytes :
  Z.land directParams O_DIRECT <> 0 /\
  padBatch directParams stale1024 100 0
  = (Some (replicate 100 170 ++ replicate 100 0 ++ replicate 824 170),
     512, 412) /\
  (replicate 100 170 ++ replicate 100 0 ++ replicate 824 170) !! 200%nat
  = Some 170.
Proof.
  split; [vm_compute; discriminate|].
  split; vm_compute; reflexivity.
Qed.

(** When the batch ends in the second half of a block the same [memset]
    clears more than the pad; near the end of the buffer it writes past
    it. *)
Lemma padBatch_writes_past_end :
  (padBatch directParams stale1024 924 0).1.1 = None.
Proof. vm_compute; reflexivity. Qed.

End DrainFacts.

(** ** Set-up and change of the log file *)

Module SetupFacts.
Import Setup.

(** A failed allocation ends the process, whichever of the two fails. *)
Lemma ctor_exits_on_failed_alloc open_ret err1 p1 err2 p2 :
  open_ret <> 0 -> err1 <> 0 \/ err2 <> 0 ->
  FastLogger_ctor open_ret (err1, p1) (err2, p2) = Exits (-1) alloc_diagnostic.
Proof.
  intros Ho He. unfold FastLogger_ctor.
  destruct (open_ret =? 0) eqn:E; [lia|].
  destruct (err1 =? 0) eqn:E1; simpl; [|reflexivity].
  destruct (err2 =? 0) eqn:E2; simpl; [lia|reflexivity].
Qed.

(** The test on the descriptor is [!outputFd]: the constructor exits
    with the diagnostic of a failed [open] exactly when [open] has
    returned descriptor 0. *)
Lemma ctor_open_diagnostic_iff open_ret a1 a2 :
  FastLogger_ctor open_ret a1 a2 = Exits (-1) open_diagnostic <-> open_ret = 0.
Proof.
  unfold FastLogger_ctor. destruct a1 as [e1 p1], a2 as [e2 p2].
  destruct (open_ret =? 0) eqn:E; [split; [lia|reflexivity]|].
  split; [|lia].
  destruct (e1 =? 0); simpl; [destruct (e2 =? 0); simpl|]; discriminate.
Qed.

(** C7. A failed [open] does not end the process.  [open] reports
    failure by returning -1; with both allocations successful the
    constructor goes on to start the logger with [outputFd = -1]. *)
Theorem ctor_continues_after_failed_open p1 p2 :
  FastLogger_ctor (-1) (0, p1) (0, p2) = Constructed (-1) p1 p2.
Proof. reflexivity. Qed.

(** A file that exists and cannot be read and written is refused. *)
Lemma setLogFile_throws_unreadable filename rw_ret open_ret joinable fd :
  rw_ret <> 0 ->
  setLogFile_internal filename 0 rw_ret open_ret joinable fd
  = Throws (String.append "Unable to read/write from file: " filename).
Proof.
  intros H. unfold setLogFile_internal.
  destruct (rw_ret =? 0) eqn:E; [lia|reflexivity].
Qed.

(** A change of file that goes through syncs first, then stops the
    thread, then swaps the descriptor, then starts the thread again. *)
Lemma setLogFile_order filename exists_ret rw_ret open_ret joinable fd steps :
  setLogFile_internal filename exists_ret rw_ret open_ret joinable fd
  = Switched steps ->
  exists stop, steps = [CallSync; RequestExit] ++ stop
                       ++ [StoreOutputFd open_ret; ClearExit; LaunchThread] /\
    Forall (fun a => a = JoinThread \/ a = CloseFd fd) stop.
Proof.
  unfold setLogFile_internal.
  destruct (_ && _); [discriminate|].
  destruct (open_ret =? 0); [discriminate|].
  intros [= <-].
  exists ((if joinable then [JoinThread] else [])
          ++ (if fd >? 0 then [CloseFd fd] else [])).
  split; [now rewrite <- !app_assoc|].
  apply Forall_app. split.
  - destruct joinable; [constructor; [left; reflexivity|]|]; constructor.
  - destruct (fd >? 0); [constructor; [right; reflexivity|]|]; constructor.
Qed.

(** C8. A failed [open] is not reported.  For a path that does not
    exist ([access] returns -1) and on which [open] fails (returns -1),
    nothing is thrown: the logger syncs, stops its thread, closes the
    descriptor it had and goes on with [outputFd = -1]. *)
Theorem setLogFile_keeps_failed_descriptor filename rw_ret :
  setLogFile_internal filename (-1) rw_ret (-1) true 3
  = Switched [CallSync; RequestExit; JoinThread; CloseFd 3;
              StoreOutputFd (-1); ClearExit; LaunchThread].
Proof. reflexivity. Qed.

End SetupFacts.

(** ** The sync protocol *)

Module SyncFacts.
Import SyncProtocol.

Lemma memb_In p l : memb p l = true -> In p l.
Proof.
  unfold memb. rewrite existsb_exists. intros (q & Hin & E).
  apply bool_decide_eq_true in E. now subst.
Qed.

Lemma explored_closed : closed explored = true.
Proof. vm_compute. reflexivity. Qed.

Lemma closed_step R w s e w' :
  closed R = true -> In (w, s) R -> In (e, w') (steps w) ->
  allowed s e = true /\ In (w', observe s e) R.
Proof.
  intros C Hin Hstep. unfold closed in C.
  rewrite List.forallb_forall in C. specialize (C _ Hin). simpl in C.
  rewrite List.forallb_forall in C. specialize (C _ Hstep). simpl in C.
  apply andb_prop in C as [A M]. split; [exact A|]. now apply memb_In.
Qed.

Lemma explored_step w s e w' :
  In (w, s) explored -> In (e, w') (steps w) ->
  allowed s e = true /\ In (w', observe s e) explored.
Proof. apply closed_step, explored_closed. Qed.

Lemma well_ordered_from_snoc t : forall s e,
  well_ordered_from s (t ++ [e])
  = well_ordered_from s t && allowed (fold_left observe t s) e.
Proof.
  induction t as [|x t IH]; intros s e; simpl.
  - now rewrite andb_true_r.
  - rewrite IH. now rewrite andb_assoc.
Qed.

(** Every run stays among the states explored, and its events are in
    order. *)
Lemma reachable_explored w t :
  reachable w t -> In (w, summarize t) explored /\ well_ordered t = true.
Proof.
  induction 1 as [|w t e w' _ [IHin IHok] Hstep].
  - split; [|reflexivity]. apply memb_In. vm_compute. reflexivity.
  - destruct (explored_step _ _ _ _ IHin Hstep) as [A M]. split.
    + unfold summarize. rewrite fold_left_app. exact M.
    + unfold well_ordered. rewrite well_ordered_from_snoc.
      unfold well_ordered in IHok. rewrite IHok. exact A.
Qed.

(** The last event of a run was allowed by the events before it. *)
Lemma last_allowed w t e :
  reachable w (t ++ [e]) -> allowed (summarize t) e = true.
Proof.
  intros H. destruct (reachable_explored _ _ H) as [_ Hok].
  unfold well_ordered in Hok. rewrite well_ordered_from_snoc in Hok.
  now apply andb_prop in Hok as [_ A].
Qed.

Lemma since_snoc mark t e :
  since mark (t ++ [e])
  = if bool_decide (e = mark) then [] else since mark t ++ [e].
Proof. unfold since. now rewrite fold_left_app. Qed.

Lemma summarize_snoc t e : summarize (t ++ [e]) = observe (summarize t) e.
Proof. unfold summarize. now rewrite fold_left_app. Qed.

(** The counts kept in a summary are sound: that many events of
    [fresh_scan] have come, in order, since the last [SetSync], and that
    many of [whole_scan] since the last [ClearSync]. *)
Lemma progress_sound t :
  exists how,
    (progress (summarize t) <= 4)%nat /\
    take (progress (summarize t)) (fresh_scan how)
      `sublist_of` since_request t.
Proof.
  induction t as [|e t (how & IHk & IHs)] using rev_ind.
  - exists IdlePass. split; [simpl; lia|apply sublist_nil].
  - unfold since_request in *. rewrite summarize_snoc, since_snoc. simpl.
    set (k := progress (summarize t)) in *.
    set (l := since SetSync t) in *.
    destruct (bool_decide (e = SetSync)) eqn:E.
    + apply bool_decide_eq_true in E. subst e. simpl.
      exists how. split; [lia|apply sublist_nil].
    + assert (Hkeep : take k (fresh_scan how) `sublist_of` l ++ [e])
        by now apply sublist_inserts_r.
      assert (Hnext : forall how' k',
                take k (fresh_scan how') = take k (fresh_scan how) ->
                fresh_scan how' !! k = Some e -> k' = S k ->
                (k' <= 4)%nat /\
                take k' (fresh_scan how') `sublist_of` l ++ [e]).
      { intros how' k' Ht Hl ->. split.
        - apply lookup_lt_Some in Hl. simpl in Hl. lia.
        - rewrite (take_S_r _ _ _ Hl), Ht. now apply sublist_app. }
      destruct e as [|how0 [|]| | | | | | | | | | | | | | | |];
        try (exists how; split; [exact IHk|exact Hkeep]);
        try discriminate E;
        destruct k as [|[|[|[|[|k]]]]]; simpl;
        try (exists how; split; [lia|exact Hkeep]);
        try (exists how; apply (Hnext how); reflexivity);
        try (exists how0; apply (Hnext how0); reflexivity);
        lia.
Qed.

Lemma scanned_sound t :
  exists how,
    take (scanned (summarize t)) (whole_scan how) `sublist_of` since_clear t.
Proof.
  induction t as [|e t (how & IHs)] using rev_ind.
  - exists IdlePass. apply sublist_nil.
  - unfold since_clear in *. rewrite summarize_snoc, since_snoc. simpl.
    set (k := scanned (summarize t)) in *.
    set (l := since ClearSync t) in *.
    destruct (bool_decide (e = ClearSync)) eqn:E.
    + apply bool_decide_eq_true in E. subst e. simpl.
      exists how. apply sublist_nil.
    + assert (Hkeep : take k (whole_scan how) `sublist_of` l ++ [e])
        by now apply sublist_inserts_r.
      assert (Hnext : forall how' k',
                take k (whole_scan how') = take k (whole_scan how) ->
                whole_scan how' !! k = Some e -> k' = S k ->
                take k' (whole_scan how') `sublist_of` l ++ [e]).
      { intros how' k' Ht Hl ->.
        rewrite (take_S_r _ _ _ Hl), Ht. now apply sublist_app. }
      destruct e as [|how0 [|]| | | | | | | | | | | | | | | |];
        try (exists how; exact Hkeep);
        try discriminate E;
        destruct k as [|[|k]]; simpl;
        try (exists how; exact Hkeep);
        try (exists how; apply (Hnext how 1%nat); reflexivity);
        try (exists how0; apply (Hnext how0 2%nat); reflexivity).
Qed.

Lemma spurious_sound t :
  spurious (summarize t) = true -> In SpuriousWake (since_request t).
Proof.
  induction t as [|e t IH] using rev_ind; [discriminate|].
  unfold since_request in *. rewrite summarize_snoc, since_snoc. simpl.
  destruct e; simpl; try discriminate;
    try (intros H; apply in_or_app; left; now apply IH).
  intros _. apply in_or_app. right. now left.
Qed.

Lemma exiting_sound t :
  exiting (summarize t) = true -> In ExitRequested t.
Proof.
  induction t as [|e t IH] using rev_ind; [discriminate|].
  rewrite summarize_snoc. simpl.
  destruct e; simpl; try discriminate;
    try (intros H; apply in_or_app; left; now apply IH).
  intros _. apply in_or_app. right. now left.
Qed.


Ltac run_of_events :=
  repeat match goal with
  | |- reachable _ [] => apply reach_start
  | |- reachable _ (?x :: ?l) =>
      let l' := eval cbv in (removelast (x :: l)) in
      let e := eval cbv in (List.last (x :: l) x) in
      change (x :: l) with (l' ++ [e]);
      eapply reach_step
  end;
  cbv; repeat (first [left; reflexivity | right]).

Lemma one_sync_reachable :
  reachable (mkWorld false false Free DWaiting SOutside) one_sync.
Proof. unfold one_sync. run_of_events. Defined.



(** The order is not met by every list of events: a return right
    after the drainer has cleared the flag is refused. *)
Example early_return_refused :
  well_ordered [SyncCall; CallerLocks; SetSync; NotifyWorkAdded;
                WaitHintQueueEmptied; ScanStart; ScanEnd IdlePass true;
                DrainerLocks; ClearSync; SyncReturn] = false.
Proof. reflexivity. Qed.

End SyncFacts.

(** ** More on the staging buffer *)

Module StagingMore.
Import Staging.

Section Ring.

Variable SIZE : Z.

Lemma set_consumerPos_same sb : set_consumerPos (consumerPos sb) sb = sb.
Proof. now destruct sb. Qed.

Lemma span_empty sb a : span sb a a = [].
Proof. unfold span. now rewrite Z.sub_diag. Qed.

(** X1. Without blocking the call never spins: it returns at its first
    load of [consumerPos], whatever the drainer does afterwards. *)
Theorem nonblocking_reserve_uses_one_load n c loads sb :
  exists r sb',
    reserveSpaceInternal SIZE [c] n false sb = Some (r, sb') /\
    reserveSpaceInternal SIZE (c :: loads) n false sb = Some (r, sb').
Proof.
  simpl. destruct (minFreeSpace sb <=? n); [|eauto].
  unfold reserveIteration, recompute; simpl.
  destruct (c <=? producerPos sb); simpl.
  - destruct (to_u64 (storage sb + SIZE - producerPos sb) >? n); simpl; [eauto|].
    destruct (to_u64 (c - storage sb) <=? n) eqn:E; simpl; [eauto|].
    rewrite E. destruct loads; simpl; rewrite E; eauto.
  - destruct (to_u64 (c - producerPos sb) <=? n) eqn:E; simpl; [eauto|].
    rewrite E. destruct loads; simpl; rewrite E; eauto.
Qed.

(** X2. A pointer returned by the slow path is [producerPos], and the
    free run it stands for lies inside the ring: the cache exceeds the
    request, does not reach past the end of [storage], and, when the
    consumer is ahead of the producer, does not reach past
    [consumerPos]. *)
Theorem reserved_span_inside_ring loads n blocking : forall sb p sb',
  0 <= storage sb -> storage sb + SIZE < u64_modulus ->
  in_ring SIZE sb (producerPos sb) ->
  Forall (in_ring SIZE sb) loads ->
  minFreeSpace sb <= n ->
  reserveSpaceInternal SIZE loads n blocking sb = Some (Some p, sb') ->
  p = producerPos sb' /\ storage sb <= p /\ n < minFreeSpace sb' /\
  p + minFreeSpace sb' <= storage sb + SIZE /\
  (p < consumerPos sb' -> p + minFreeSpace sb' <= consumerPos sb').
Proof.
  induction loads as [|c loads IH]; intros sb p sb' H0 Hm Hp Hl Hslow; simpl.
  - replace (minFreeSpace sb <=? n) with true by lia. discriminate.
  - replace (minFreeSpace sb <=? n) with true by lia.
    inversion Hl as [|? ? Hc Hl']; subst. unfold in_ring in Hp, Hc.
    assert (Hnext : forall sb1,
      storage sb1 = storage sb -> in_ring SIZE sb1 (producerPos sb1) ->
      consumerPos sb1 = c ->
      minFreeSpace sb1 = c - producerPos sb1 ->
      reserveSpaceInternal SIZE loads n blocking sb1 = Some (Some p, sb') ->
      p = producerPos sb' /\ storage sb <= p /\ n < minFreeSpace sb' /\
      p + minFreeSpace sb' <= storage sb + SIZE /\
      (p < consumerPos sb' -> p + minFreeSpace sb' <= consumerPos sb')).
    { intros sb1 Hs Hp1 Hc1 Hf1 Hr. unfold in_ring in Hp1. rewrite Hs in Hp1.
      destruct (minFreeSpace sb1 <=? n) eqn:E.
      - rewrite <- Hs. apply (IH sb1); try lia; auto.
        + unfold in_ring. lia.
        + unfold in_ring in *. now rewrite Hs.
      - assert (Hr' : Some (Some (producerPos sb1), sb1) = Some (Some p, sb')).
        { rewrite <- Hr. destruct loads; simpl; now rewrite E. }
        injection Hr' as <- <-. repeat split; lia. }
    unfold reserveIteration, recompute; simpl.
    destruct (c <=? producerPos sb) eqn:Ec; simpl.
    + rewrite (to_u64_small (storage sb + SIZE - producerPos sb)) by lia.
      destruct (storage sb + SIZE - producerPos sb >? n) eqn:Et; simpl.
      * intros [= <- <-]. simpl. repeat split; lia.
      * rewrite (to_u64_small (c - storage sb)) by lia.
        destruct (negb blocking && _); simpl; [discriminate|].
        apply Hnext; simpl; auto. unfold in_ring; simpl; lia.
    + rewrite (to_u64_small (c - producerPos sb)) by lia.
      destruct (negb blocking && _); simpl; [discriminate|].
      apply Hnext; simpl; auto.
Qed.

(** One pass of the loop body, the consumer off the start of [storage]
    or nothing unread: the readable region stays what it was. *)
Lemma reserveIteration_keeps_readable n blocking sb :
  well_formed SIZE sb ->
  consumerPos sb <> storage sb \/ consumerPos sb = producerPos sb ->
  match reserveIteration SIZE n blocking sb with
  | Return _ sb' | LoopAgain sb' =>
      readable sb' = readable sb /\
      (consumerPos sb' <> storage sb' \/ consumerPos sb' = producerPos sb')
  end.
Proof.
  intros (H0 & Hm & Hp & Hc & He) Hoff. unfold in_ring in *.
  unfold reserveIteration, recompute; simpl.
  destruct (consumerPos sb <=? producerPos sb) eqn:E; simpl.
  - destruct (_ >? n); simpl; [split; [reflexivity|exact Hoff]|].
    assert (R : readable
                  (set_minFreeSpace (to_u64 (consumerPos sb - storage sb))
                     (set_producerPos (storage sb)
                        (set_endOfRecordedSpace (producerPos sb)
                           (set_minFreeSpace
                              (to_u64 (storage sb + SIZE - producerPos sb)) sb))))
                = readable sb).
    { unfold readable; simpl. rewrite E.
      destruct (consumerPos sb <=? storage sb) eqn:E'.
      - assert (consumerPos sb = storage sb) as Hs by lia.
        destruct Hoff as [Hoff|Hoff]; [contradiction|].
        rewrite <- Hoff, Hs. unfold span; simpl. now rewrite !Z.sub_diag.
      - unfold span at 2; simpl. rewrite Z.sub_diag. simpl.
        now rewrite app_nil_r. }
    assert (O : consumerPos sb <> storage sb \/ consumerPos sb = storage sb)
      by lia.
    destruct (negb blocking && _); simpl; (split; [exact R|exact O]).
  - destruct (negb blocking && _); simpl; (split; [reflexivity|exact Hoff]).
Qed.

(** X3. A reservation takes nothing from the consumer as long as the
    consumer is not at the start of [storage] with bytes unread:
    whatever the call returns, and after any number of passes with the
    drainer idle, the readable region is the one before the call. *)
Theorem reserve_keeps_readable k n blocking : forall sb r sb',
  well_formed SIZE sb ->
  consumerPos sb <> storage sb \/ consumerPos sb = producerPos sb ->
  reserveSpaceInternal SIZE (idle k sb) n blocking sb = Some (r, sb') ->
  readable sb' = readable sb.
Proof.
  unfold idle.
  induction k as [|k IH]; intros sb r sb' W Hoff; simpl.
  - destruct (minFreeSpace sb <=? n); [discriminate|]. now intros [= <- <-].
  - destruct (minFreeSpace sb <=? n); [|now intros [= <- <-]].
    rewrite set_consumerPos_same.
    pose proof (reserveIteration_keeps_readable n blocking sb W Hoff) as K.
    pose proof (StagingFacts.reserveIteration_well_formed SIZE n blocking sb W) as W'.
    pose proof (StagingFacts.reserveIteration_storage SIZE n blocking sb) as F.
    destruct (reserveIteration SIZE n blocking sb) as [r1 sb1|sb1].
    + intros [= <- <-]. apply K.
    + destruct K as [K1 K2], F as (_ & _ & Fc & _).
      rewrite <- Fc. intros Hr. rewrite <- K1. now apply (IH sb1 r sb').
Qed.

(** X4. With the drainer idle a reservation keeps a well-formed buffer
    well-formed, whatever it returns. *)
Theorem reserve_keeps_well_formed k n blocking : forall sb r sb',
  well_formed SIZE sb ->
  reserveSpaceInternal SIZE (idle k sb) n blocking sb = Some (r, sb') ->
  well_formed SIZE sb'.
Proof.
  unfold idle.
  induction k as [|k IH]; intros sb r sb' W; simpl.
  - destruct (minFreeSpace sb <=? n); [discriminate|]. now intros [= <- <-].
  - destruct (minFreeSpace sb <=? n); [|now intros [= <- <-]].
    rewrite set_consumerPos_same.
    pose proof (StagingFacts.reserveIteration_well_formed SIZE n blocking sb W) as W'.
    pose proof (StagingFacts.reserveIteration_storage SIZE n blocking sb) as F.
    destruct (reserveIteration SIZE n blocking sb) as [r1 sb1|sb1].
    + now intros [= <- <-].
    + destruct F as (_ & _ & Fc & _). rewrite <- Fc. now apply IH.
Qed.

(** X5. What [peek] hands to the drainer is the head of the readable
    region: the run it returns is a prefix of the readable bytes, and it
    reports nothing only when nothing is readable. *)
Theorem peek_returns_head_of_readable sb :
  well_formed SIZE sb ->
  span sb (peek sb).1.1 ((peek sb).1.1 + (peek sb).1.2)
    `prefix_of` readable sb /\
  ((peek sb).1.2 = 0 -> readable sb = []).
Proof.
  intros (H0 & Hm & Hp & Hc & He). unfold in_ring in *.
  unfold peek, readable.
  destruct (producerPos sb <? consumerPos sb) eqn:Ew; simpl.
  - specialize (He ltac:(lia)).
    replace (consumerPos sb <=? producerPos sb) with false by lia.
    rewrite (to_u64_small (endOfRecordedSpace sb - consumerPos sb)) by lia.
    destruct (endOfRecordedSpace sb - consumerPos sb >? 0) eqn:E0; simpl.
    + replace (consumerPos sb + (endOfRecordedSpace sb - consumerPos sb))
        with (endOfRecordedSpace sb) by lia.
      split; [now apply prefix_app_r|lia].
    + rewrite to_u64_small by lia.
      replace (storage sb + (producerPos sb - storage sb))
        with (producerPos sb) by lia.
      replace (endOfRecordedSpace sb) with (consumerPos sb) by lia.
      rewrite span_empty. simpl. split; [reflexivity|].
      intros Hz. replace (producerPos sb) with (storage sb) by lia.
      apply span_empty.
  - replace (consumerPos sb <=? producerPos sb) with true by lia.
    rewrite to_u64_small by lia.
    replace (consumerPos sb + (producerPos sb - consumerPos sb))
      with (producerPos sb) by lia.
    split; [reflexivity|].
    intros Hz. replace (producerPos sb) with (consumerPos sb) by lia.
    apply span_empty.
Qed.

(** X6. A second [peek] with no [consume] and no commit in between
    returns the same pointer and count as the first and changes nothing
    more: the roll-over of [consumerPos] happens once. *)
Theorem peek_twice sb :
  storage sb <= producerPos sb ->
  peek (peek sb).2 = ((peek sb).1, (peek sb).2).
Proof.
  intros Hp. unfold peek.
  destruct (producerPos sb <? consumerPos sb) eqn:Ew; simpl.
  - destruct (to_u64 (endOfRecordedSpace sb - consumerPos sb) >? 0) eqn:E0;
      simpl.
    + now rewrite Ew, E0.
    + replace (producerPos sb <? storage sb) with false by lia. reflexivity.
  - now rewrite Ew.
Qed.

(** X7. [peek] keeps a well-formed buffer well-formed, and moves
    nothing but [consumerPos]. *)
Theorem peek_keeps_well_formed sb :
  well_formed SIZE sb ->
  well_formed SIZE (peek sb).2 /\
  (peek sb).2 = set_consumerPos (consumerPos (peek sb).2) sb.
Proof.
  intros W. split; [now apply StagingFacts.peek_well_formed|].
  unfold peek. destruct (producerPos sb <? consumerPos sb); simpl.
  - destruct (_ >? 0); simpl; [now rewrite set_consumerPos_same|reflexivity].
  - now rewrite set_consumerPos_same.
Qed.

End Ring.

(** *** On the ring of 16 bytes *)

Lemma partly16_well_formed : well_formed 16 partly16.
Proof.
  unfold well_formed, in_ring; simpl.
  repeat split; first [lia | vm_compute; reflexivity].
Defined.

Lemma partly16_after_reserve :
  reserveSpaceInternal 16 (idle 1 partly16) 7 false partly16
  = Some (Some 4096,
          mkStagingBuffer 4096 (contents partly16) 4096 4104 4106 8 false).
Proof. vm_compute. reflexivity. Defined.

Lemma reserved_span_inside_ring_witness :
  4096 = 4096 /\ 4096 <= 4096 /\ 7 < 8 /\ 4096 + 8 <= 4096 + 16 /\
  (4096 < 4104 -> 4096 + 8 <= 4104).
Proof.
  refine (reserved_span_inside_ring 16 (idle 1 partly16) 7 false partly16
            4096 _ _ _ _ _ _ partly16_after_reserve).
  - simpl; lia.
  - vm_compute; reflexivity.
  - unfold in_ring; simpl; lia.
  - repeat constructor; unfold in_ring; simpl; lia.
  - simpl; lia.
Defined.

Lemma reserve_keeps_readable_witness :
  readable (mkStagingBuffer 4096 (contents partly16) 4096 4104 4106 8 false)
  = readable partly16.
Proof.
  refine (reserve_keeps_readable 16 1 7 false partly16 (Some 4096) _
            partly16_well_formed _ partly16_after_reserve).
  left. simpl. lia.
Defined.

Lemma reserve_keeps_well_formed_witness :
  well_formed 16
    (mkStagingBuffer 4096 (contents partly16) 4096 4104 4106 8 false).
Proof.
  exact (reserve_keeps_well_formed 16 1 7 false partly16 (Some 4096) _
           partly16_well_formed partly16_after_reserve).
Defined.

Lemma peek_returns_head_of_readable_witness :
  span partly16 4104 (4104 + 2) `prefix_of` readable partly16 /\
  (2 = 0 -> readable partly16 = []).
Proof.
  exact (peek_returns_head_of_readable 16 partly16 partly16_well_formed).
Defined.

Lemma peek_twice_witness :
  peek (peek wrapped16).2 = ((peek wrapped16).1, (peek wrapped16).2).
Proof. apply peek_twice. simpl. lia. Defined.

Lemma peek_keeps_well_formed_witness :
  well_formed 16 (peek wrapped16).2 /\
  (peek wrapped16).2 = set_consumerPos (consumerPos (peek wrapped16).2) wrapped16.
Proof.
  apply peek_keeps_well_formed.
  unfold well_formed, in_ring; simpl.
  repeat split; first [lia | vm_compute; reflexivity].
Defined.

End StagingMore.

(** ** More on the scan *)

Module DrainMore.
Import Staging Drain.

Section Scan.

Variable OUTPUT_BUFFER_SIZE : Z.
Variable sizeofEntry : Z.
Variable entryAt : StagingBuffer -> Z -> UncompressedLogEntry.
Variable compressMetadata : UncompressedLogEntry -> Z -> Z -> Z -> Z.
Variable compressFnArray : Z -> UncompressedLogEntry -> Z -> Z.

Local Abbreviation compressEntries :=
  (compressEntries OUTPUT_BUFFER_SIZE sizeofEntry entryAt compressMetadata
     compressFnArray).
Local Abbreviation scanStep :=
  (scanStep OUTPUT_BUFFER_SIZE sizeofEntry entryAt compressMetadata
     compressFnArray).
Local Abbreviation scanLoop :=
  (scanLoop OUTPUT_BUFFER_SIZE sizeofEntry entryAt compressMetadata
     compressFnArray).

(** *** The indices *)

(** What the loop over the records leaves alone, and the one way it
    moves [lastStagingBufferChecked]. *)
Lemma compressEntries_frame fuel : forall sb pp rb d,
  let d' := (compressEntries fuel sb pp rb d).2 in
  threadBuffers d' = threadBuffers d /\ i d' = i d /\
  compressionThreadShouldExit d' = compressionThreadShouldExit d /\
  ((outputBufferFull d' = outputBufferFull d /\
    lastStagingBufferChecked d' = lastStagingBufferChecked d) \/
   (outputBufferFull d' = true /\ lastStagingBufferChecked d' = i d)).
Proof.
  induction fuel as [|fuel IH]; intros sb pp rb d; simpl; [tauto|].
  destruct (rb >? 0); [|simpl; tauto].
  destruct (rb <? sizeofEntry); [simpl; tauto|].
  destruct (rb <? entrySize (entryAt sb pp)); [simpl; tauto|].
  destruct (_ >? _); [simpl; tauto|].
  match goal with
  | |- context [compressEntries ?f ?s ?p ?r ?x] =>
      specialize (IH s p r x); simpl in IH
  end.
  exact IH.
Qed.

Lemma advance_frame d :
  threadBuffers (advance d).2 = threadBuffers d /\
  outputBufferFull (advance d).2 = outputBufferFull d /\
  lastStagingBufferChecked (advance d).2 = lastStagingBufferChecked d /\
  i (advance d).2 = ((i d + 1) mod length (threadBuffers d))%nat.
Proof.
  unfold advance. simpl. destruct (_ =? _)%nat; [|simpl; tauto].
  destruct (negb (workFound d)); simpl; tauto.
Qed.

(** The loop over the records ends in a break, an exhausted run, a
    failed assertion or the end of the fuel, never out of range. *)
Lemma compressEntries_stop fuel : forall sb pp rb d,
  (compressEntries fuel sb pp rb d).1.1.1 <> OutOfRange /\
  (compressEntries fuel sb pp rb d).1.1.1 <> Running.
Proof.
  induction fuel as [|fuel IH]; intros sb pp rb d; simpl;
    [split; discriminate|].
  destruct (rb >? 0); [|split; discriminate].
  destruct (rb <? sizeofEntry); [split; discriminate|].
  destruct (rb <? entrySize (entryAt sb pp)); [split; discriminate|].
  destruct (_ >? _); [split; discriminate|].
  apply IH.
Qed.

Lemma scanStep_indices fuel d :
  valid_index (i d) d -> outputBufferFull d = false ->
  (scanStep fuel d).1 <> OutOfRange /\ indices_fine (scanStep fuel d).2.
Proof.
  unfold valid_index, indices_fine, Drain.scanStep. intros Hi Hf.
  destruct (threadBuffers d !! i d) as [sb|] eqn:L;
    [|apply lookup_ge_None in L; lia].
  destruct (peek sb) as [[pp rb] sb1].
  destruct (rb >? 0).
  - pose proof (compressEntries_frame fuel sb1 pp rb (set_workFound true d))
      as (Ft & Fi & _ & Ff).
    pose proof (compressEntries_stop fuel sb1 pp rb (set_workFound true d))
      as Hst.
    destruct (compressEntries fuel sb1 pp rb (set_workFound true d))
      as [[[st sb2] unread] d2].
    simpl in Ft, Fi, Ff, Hst.
    set (d4 := set_totalBytesRead _ _).
    assert (Hlen : length (threadBuffers d4) = length (threadBuffers d)).
    { subst d4. simpl. now rewrite length_insert, Ft. }
    assert (Hlast : outputBufferFull d4 = true ->
                    (lastStagingBufferChecked d4 < length (threadBuffers d))%nat).
    { subst d4. simpl. destruct Ff as [[E _]|[_ E]]; [|rewrite E; auto].
      rewrite E. simpl. rewrite Hf. discriminate. }
    assert (Hd4 : valid_index (i d4) d4 /\
                  (outputBufferFull d4 = true ->
                   valid_index (lastStagingBufferChecked d4) d4)).
    { unfold valid_index. rewrite Hlen. split; [subst d4; simpl; lia|exact Hlast]. }
    destruct Hst as [Hst _].
    destruct st; simpl; try (split; [discriminate|split; [right|]; apply Hd4]);
      try (exfalso; now apply Hst).
    pose proof (advance_frame d4) as (At & Af & Al & Ai).
    split; [unfold advance; destruct (_ =? _)%nat;
            [destruct (negb _)|]; discriminate|].
    unfold valid_index. rewrite At, Af, Al, Ai, Hlen. split.
    + right. apply Nat.mod_upper_bound. lia.
    + exact Hlast.
  - destruct (checkCanDelete sb1); simpl.
    + split; [discriminate|]. split.
      * apply (DrainFacts.eraseBuffer_keeps_i_valid sb1 d Hi).
      * unfold eraseBuffer. simpl.
        destruct (_ =? _)%nat; simpl; [destruct (_ =? _)%nat; simpl|];
          rewrite Hf; discriminate.
    + set (d1 := set_threadBuffers _ d).
      assert (Hlen : length (threadBuffers d1) = length (threadBuffers d))
        by (subst d1; simpl; apply length_insert).
      pose proof (advance_frame d1) as (At & Af & Al & Ai).
      split; [unfold advance; destruct (_ =? _)%nat;
              [destruct (negb _)|]; discriminate|].
      unfold valid_index. rewrite At, Af, Al, Ai, Hlen. split.
      * right. apply Nat.mod_upper_bound. lia.
      * subst d1. simpl. rewrite Hf. discriminate.
Qed.

Lemma scanLoop_indices fuel : forall d,
  indices_fine d ->
  (scanLoop fuel d).1 <> OutOfRange /\ indices_fine (scanLoop fuel d).2.
Proof.
  induction fuel as [|fuel IH]; intros d Hd; simpl;
    [split; [discriminate|exact Hd]|].
  destruct (compressionThreadShouldExit d); simpl;
    [split; [discriminate|exact Hd]|].
  destruct (outputBufferFull d) eqn:Hf; simpl;
    [split; [discriminate|exact Hd]|].
  destruct (bool_decide (threadBuffers d = [])) eqn:He; simpl;
    [split; [discriminate|exact Hd]|].
  apply bool_decide_eq_false in He.
  destruct Hd as [[Hd|Hd] _]; [contradiction|].
  pose proof (scanStep_indices fuel d Hd Hf) as [Hno Hfine].
  destruct (scanStep fuel d) as [st d']. simpl in Hno, Hfine.
  destruct st; try (split; [discriminate|exact Hfine]);
    try contradiction.
  now apply IH.
Qed.

(** X8. A scan never indexes the registry out of range through [i]:
    started at a valid index it does not read past the end of
    [threadBuffers], whatever buffers it erases on the way, and it ends
    with the registry empty or [i] a valid index. *)
Theorem scan_stays_in_range fuel d :
  valid_index (i d) d ->
  outputBufferFull d = false ->
  (scanLoop fuel d).1 <> OutOfRange /\
  (threadBuffers (scanLoop fuel d).2 = [] \/
   valid_index (i (scanLoop fuel d).2) (scanLoop fuel d).2).
Proof.
  intros Hi Hf.
  destruct (scanLoop_indices fuel d) as [Hno [Hfine _]].
  - split; [now right|]. rewrite Hf. discriminate.
  - split; [exact Hno|exact Hfine].
Qed.

(** X9. A scan that stops because the output is full has saved a valid
    place to resume: [lastStagingBufferChecked] is then an index into
    the registry. *)
Theorem full_output_saves_valid_index fuel d :
  valid_index (i d) d ->
  outputBufferFull d = false ->
  outputBufferFull (scanLoop fuel d).2 = true ->
  valid_index (lastStagingBufferChecked (scanLoop fuel d).2) (scanLoop fuel d).2.
Proof.
  intros Hi Hf.
  destruct (scanLoop_indices fuel d) as [_ [_ Hlast]].
  - split; [now right|]. rewrite Hf. discriminate.
  - exact Hlast.
Qed.

(** *** Counters, registry and baselines *)

Lemma count_calls_app a b :
  count_calls (a ++ b) = (count_calls a + count_calls b)%nat.
Proof.
  induction a as [|e a IH]; simpl; [reflexivity|].
  destruct (is_compress e); simpl; now rewrite IH.
Qed.

Lemma count_destroyed_app a b :
  count_destroyed (a ++ b) = (count_destroyed a + count_destroyed b)%nat.
Proof.
  induction a as [|e a IH]; simpl; [reflexivity|].
  destruct (is_compress e); simpl; now rewrite IH.
Qed.

Lemma last_entry_app a b :
  last_entry (a ++ b)
  = match last_entry b with
    | Some re => Some re
    | None => last_entry a
    end.
Proof.
  induction a as [|e a IH]; simpl; [now destruct (last_entry b)|].
  rewrite IH. now destruct (last_entry b).
Qed.

Lemma to_u64_add_l a b : to_u64 (to_u64 a + b) = to_u64 (a + b).
Proof. unfold to_u64, u64_modulus. now rewrite Z.add_mod_idemp_l by lia. Qed.

Lemma scan_effect_refl d : scan_effect d d.
Proof.
  exists []. rewrite app_nil_r, Z.add_0_r. simpl.
  repeat split; lia.
Qed.

Lemma scan_effect_trans d1 d2 d3 :
  scan_effect d1 d2 -> scan_effect d2 d3 -> scan_effect d1 d3.
Proof.
  intros (n1 & E1 & C1 & L1 & B1) (n2 & E2 & C2 & L2 & B2).
  exists (n1 ++ n2). split; [|split; [|split]].
  - rewrite E2, E1. now rewrite app_assoc.
  - rewrite C2, count_calls_app, Nat2Z.inj_add.
    rewrite <- to_u64_add_l, C1, to_u64_add_l. f_equal. lia.
  - rewrite count_destroyed_app. lia.
  - rewrite last_entry_app. destruct (last_entry n2); [exact B2|].
    destruct (last_entry n1); destruct B1, B2; split; congruence.
Qed.

(** Same events, counter, registry and baselines. *)
Lemma scan_effect_same d d' :
  events d' = events d -> eventsProcessed d' = eventsProcessed d ->
  length (threadBuffers d') = length (threadBuffers d) ->
  lastFmtId d' = lastFmtId d -> lastTimestamp d' = lastTimestamp d ->
  scan_effect d d'.
Proof.
  intros E C L F T. exists []. rewrite app_nil_r, Z.add_0_r, C. simpl.
  repeat split; auto; lia.
Qed.

Lemma compressEntries_effect fuel : forall sb pp rb d,
  scan_effect d (compressEntries fuel sb pp rb d).2.
Proof.
  induction fuel as [|fuel IH]; intros sb pp rb d; simpl;
    [apply scan_effect_refl|].
  destruct (rb >? 0); [|apply scan_effect_refl].
  destruct (rb <? sizeofEntry); [apply scan_effect_refl|].
  destruct (rb <? entrySize (entryAt sb pp)); [apply scan_effect_refl|].
  destruct (_ >? _); [now apply scan_effect_same|].
  eapply scan_effect_trans; [|apply IH].
  eexists [_]. simpl. split; [reflexivity|].
  split; [unfold to_u64; now rewrite Z.mod_mod by (unfold u64_modulus; lia)|].
  split; [simpl; lia|split; reflexivity].
Qed.

Lemma advance_same d :
  events (advance d).2 = events d /\
  eventsProcessed (advance d).2 = eventsProcessed d /\
  lastFmtId (advance d).2 = lastFmtId d /\
  lastTimestamp (advance d).2 = lastTimestamp d /\
  out (advance d).2 = out d.
Proof.
  unfold advance. simpl. destruct (_ =? _)%nat; [|simpl; tauto].
  destruct (negb (workFound d)); simpl; tauto.
Qed.

Lemma scanStep_effect fuel d : scan_effect d (scanStep fuel d).2.
Proof.
  unfold Drain.scanStep.
  destruct (threadBuffers d !! i d) as [sb|] eqn:L; [|apply scan_effect_refl].
  destruct (peek sb) as [[pp rb] sb1].
  destruct (rb >? 0).
  - pose proof (compressEntries_effect fuel sb1 pp rb (set_workFound true d))
      as H.
    destruct (compressEntries fuel sb1 pp rb (set_workFound true d))
      as [[[st sb2] unread] d2].
    simpl in H.
    set (d4 := set_totalBytesRead _ _).
    assert (H4 : scan_effect d d4).
    { eapply scan_effect_trans; [exact H|].
      apply scan_effect_same; subst d4; simpl; auto. apply length_insert. }
    destruct st; simpl; try exact H4.
    eapply scan_effect_trans; [exact H4|].
    pose proof (advance_same d4) as (A1 & A2 & A3 & A4 & _).
    pose proof (advance_frame d4) as (At & _).
    apply scan_effect_same; auto. now rewrite At.
  - destruct (checkCanDelete sb1); simpl.
    + pose proof (DrainFacts.eraseBuffer_events sb1 d) as He.
      assert (Hlen : length (threadBuffers (eraseBuffer sb1 d))
                     = (length (threadBuffers d) - 1)%nat).
      { unfold eraseBuffer. simpl.
        destruct (_ =? _)%nat; simpl; [destruct (_ =? _)%nat; simpl|];
          apply length_delete; eauto. }
      apply lookup_lt_Some in L.
      assert (Hsame : eventsProcessed (eraseBuffer sb1 d) = eventsProcessed d /\
                      lastFmtId (eraseBuffer sb1 d) = lastFmtId d /\
                      lastTimestamp (eraseBuffer sb1 d) = lastTimestamp d).
      { unfold eraseBuffer. simpl.
        destruct (_ =? _)%nat; simpl; [destruct (_ =? _)%nat; simpl|]; tauto. }
      destruct Hsame as (S1 & S2 & S3).
      set (d' := eraseBuffer sb1 d) in *. clearbody d'.
      exists [Destroy sb1]. rewrite S1, Z.add_0_r. simpl.
      repeat split; auto; lia.
    + set (d1 := set_threadBuffers _ d).
      pose proof (advance_same d1) as (A1 & A2 & A3 & A4 & _).
      pose proof (advance_frame d1) as (At & _).
      apply scan_effect_same; auto. rewrite At. subst d1. simpl.
      apply length_insert.
Qed.

Lemma scanLoop_effect fuel : forall d, scan_effect d (scanLoop fuel d).2.
Proof.
  induction fuel as [|fuel IH]; intros d; simpl; [apply scan_effect_refl|].
  destruct (_ && _); [|apply scan_effect_refl].
  pose proof (scanStep_effect fuel d) as H.
  destruct (scanStep fuel d) as [st d']. simpl in H.
  destruct st; simpl; try exact H.
  eapply scan_effect_trans; [exact H|apply IH].
Qed.

(** X10. [eventsProcessed] counts the records compressed: over a scan
    it grows, as a 64-bit counter, by the number of calls of a
    per-format compressor the scan made. *)
Theorem scan_counts_events fuel d :
  exists new,
    events (scanLoop fuel d).2 = events d ++ new /\
    to_u64 (eventsProcessed (scanLoop fuel d).2)
    = to_u64 (eventsProcessed d + Z.of_nat (count_calls new)).
Proof.
  destruct (scanLoop_effect fuel d) as (new & E & C & _). eauto.
Qed.

(** X12. The baselines of the delta compression follow the records:
    after a scan [lastFmtId] and [lastTimestamp] are those of the last
    record compressed, and they are untouched when the scan compressed
    none. *)
Theorem scan_baselines_follow_last_record fuel d :
  exists new,
    events (scanLoop fuel d).2 = events d ++ new /\
    match last_entry new with
    | Some re =>
        lastFmtId (scanLoop fuel d).2 = fmtId re /\
        lastTimestamp (scanLoop fuel d).2 = timestamp re
    | None =>
        lastFmtId (scanLoop fuel d).2 = lastFmtId d /\
        lastTimestamp (scanLoop fuel d).2 = lastTimestamp d
    end.
Proof.
  destruct (scanLoop_effect fuel d) as (new & E & _ & _ & B). eauto.
Qed.

(** *** The output cursor *)

Lemma compressEntries_cursor fuel : forall sb pp rb d,
  sums_fit entryAt ->
  within_worst_case compressMetadata compressFnArray ->
  out d <= OUTPUT_BUFFER_SIZE ->
  out (compressEntries fuel sb pp rb d).2 <= OUTPUT_BUFFER_SIZE.
Proof.
  induction fuel as [|fuel IH]; intros sb pp rb d S W Ho; simpl; [exact Ho|].
  destruct (rb >? 0); [|exact Ho].
  destruct (rb <? sizeofEntry); [exact Ho|].
  destruct (rb <? entrySize (entryAt sb pp)); [exact Ho|].
  destruct (_ >? _) eqn:E; [exact Ho|].
  apply IH; [exact S|exact W|]. simpl.
  pose proof (W (entryAt sb pp) (out d) (lastTimestamp d) (lastFmtId d)).
  unfold worstCase in E. rewrite Z.mod_small in E by apply S.
  lia.
Qed.

Lemma scanStep_cursor fuel d :
  sums_fit entryAt ->
  within_worst_case compressMetadata compressFnArray ->
  out d <= OUTPUT_BUFFER_SIZE ->
  out (scanStep fuel d).2 <= OUTPUT_BUFFER_SIZE.
Proof.
  intros S W Ho. unfold Drain.scanStep.
  destruct (threadBuffers d !! i d) as [sb|]; [|exact Ho].
  destruct (peek sb) as [[pp rb] sb1].
  destruct (rb >? 0).
  - pose proof (compressEntries_cursor fuel sb1 pp rb (set_workFound true d)
                  S W Ho) as H.
    destruct (compressEntries fuel sb1 pp rb (set_workFound true d))
      as [[[st sb2] unread] d2].
    simpl in H. set (d4 := set_totalBytesRead _ _).
    assert (H4 : out d4 <= OUTPUT_BUFFER_SIZE) by exact H.
    destruct st; simpl; try exact H.
    pose proof (advance_same d4) as (_ & _ & _ & _ & A). now rewrite A.
  - destruct (checkCanDelete sb1); simpl.
    + unfold eraseBuffer. simpl.
      destruct (_ =? _)%nat; simpl; [destruct (_ =? _)%nat; simpl|]; exact Ho.
    + set (d1 := set_threadBuffers _ d).
      pose proof (advance_same d1) as (_ & _ & _ & _ & A). now rewrite A.
Qed.


(** *** A scan that finds nothing *)

Lemma peek_idle_buffer sb :
  idle_buffer sb -> peek sb = (consumerPos sb, 0, sb).
Proof.
  intros [E _]. unfold peek. rewrite E, Z.ltb_irrefl, Z.sub_diag. reflexivity.
Qed.

Lemma set_threadBuffers_same d : set_threadBuffers (threadBuffers d) d = d.
Proof. now destruct d. Qed.

Lemma scanStep_idle fuel d sb :
  threadBuffers d !! i d = Some sb -> idle_buffer sb ->
  scanStep fuel d = advance d.
Proof.
  intros L I. unfold Drain.scanStep. rewrite L, (peek_idle_buffer sb I).
  simpl. unfold checkCanDelete. rewrite (proj2 I). simpl.
  now rewrite (list_insert_id _ _ _ L), set_threadBuffers_same.
Qed.

Lemma mod_plus_ne last k n :
  (last < n)%nat -> (0 < k < n)%nat -> ((last + k) mod n)%nat <> last.
Proof.
  intros Hl Hk. destruct (Nat.lt_ge_cases (last + k) n) as [H|H].
  - rewrite Nat.mod_small by exact H. lia.
  - replace (last + k)%nat with ((last + k - n) + 1 * n)%nat by lia.
    rewrite Nat.Div0.mod_add, Nat.mod_small by lia. lia.
Qed.

Lemma idle_pass m : forall j fuel e,
  Forall idle_buffer (threadBuffers e) ->
  compressionThreadShouldExit e = false -> outputBufferFull e = false ->
  workFound e = false ->
  (lastStagingBufferChecked e < length (threadBuffers e))%nat ->
  i e = ((lastStagingBufferChecked e + j) mod length (threadBuffers e))%nat ->
  (j + m = length (threadBuffers e))%nat -> (1 <= m <= fuel)%nat ->
  scanLoop fuel e = (Stopped, set_i (lastStagingBufferChecked e) e).
Proof.
  induction m as [|m IH]; intros j fuel e Hidle Hx Hf Hw Hl Hi Hj Hm; [lia|].
  destruct fuel as [|fuel]; [lia|]. simpl. rewrite Hx, Hf. simpl.
  destruct (bool_decide (threadBuffers e = [])) eqn:He.
  { apply bool_decide_eq_true in He. rewrite He in Hl. simpl in Hl. lia. }
  simpl.
  assert (Hlt : (i e < length (threadBuffers e))%nat)
    by (rewrite Hi; apply Nat.mod_upper_bound; lia).
  destruct (lookup_lt_is_Some_2 _ _ Hlt) as [sb L].
  assert (I : idle_buffer sb).
  { rewrite Forall_forall in Hidle. apply Hidle.
    eapply list_elem_of_lookup_2; eauto. }
  rewrite (scanStep_idle fuel e sb L I). unfold advance. simpl.
  assert (Hnext : ((i e + 1) mod length (threadBuffers e))%nat
                  = ((lastStagingBufferChecked e + (j + 1))
                       mod length (threadBuffers e))%nat).
  { rewrite Hi, Nat.Div0.add_mod_idemp_l. f_equal. lia. }
  rewrite Hnext.
  destruct m as [|m].
  - replace (j + 1)%nat with (length (threadBuffers e)) by lia.
    replace (lastStagingBufferChecked e + length (threadBuffers e))%nat
      with (lastStagingBufferChecked e + 1 * length (threadBuffers e))%nat
      by lia.
    rewrite Nat.Div0.mod_add, Nat.mod_small by lia.
    rewrite Nat.eqb_refl, Hw. reflexivity.
  - pose proof (mod_plus_ne (lastStagingBufferChecked e) (j + 1)
                  (length (threadBuffers e)) Hl ltac:(lia)) as Hne.
    apply Nat.eqb_neq in Hne. rewrite Hne.
    rewrite (IH (j + 1)%nat fuel); simpl; auto; lia.
Qed.

Lemma set_i_i d : set_i (i d) d = d.
Proof. now destruct d. Qed.

(** Short of a full pass the scan has only moved [i]. *)
Lemma idle_steps fuel : forall j e,
  Forall idle_buffer (threadBuffers e) ->
  compressionThreadShouldExit e = false -> outputBufferFull e = false ->
  (lastStagingBufferChecked e < length (threadBuffers e))%nat ->
  i e = ((lastStagingBufferChecked e + j) mod length (threadBuffers e))%nat ->
  (j + fuel < length (threadBuffers e))%nat ->
  scanLoop fuel e
  = (OutOfFuel,
     set_i ((lastStagingBufferChecked e + (j + fuel))
              mod length (threadBuffers e))%nat e).
Proof.
  induction fuel as [|fuel IH]; intros j e Hidle Hx Hf Hl Hi Hj.
  - simpl. now rewrite Nat.add_0_r, <- Hi, set_i_i.
  - simpl. rewrite Hx, Hf. simpl.
    destruct (bool_decide (threadBuffers e = [])) eqn:He.
    { apply bool_decide_eq_true in He. rewrite He in Hl. simpl in Hl. lia. }
    simpl.
    assert (Hlt : (i e < length (threadBuffers e))%nat)
      by (rewrite Hi; apply Nat.mod_upper_bound; lia).
    destruct (lookup_lt_is_Some_2 _ _ Hlt) as [sb L].
    assert (I : idle_buffer sb).
    { rewrite Forall_forall in Hidle. apply Hidle.
      eapply list_elem_of_lookup_2; eauto. }
    rewrite (scanStep_idle fuel e sb L I). unfold advance. simpl.
    assert (Hnext : ((i e + 1) mod length (threadBuffers e))%nat
                    = ((lastStagingBufferChecked e + (j + 1))
                         mod length (threadBuffers e))%nat).
    { rewrite Hi, Nat.Div0.add_mod_idemp_l. f_equal. lia. }
    rewrite Hnext.
    pose proof (mod_plus_ne (lastStagingBufferChecked e) (j + 1)
                  (length (threadBuffers e)) Hl ltac:(lia)) as Hne.
    apply Nat.eqb_neq in Hne. rewrite Hne.
    rewrite (IH (j + 1)%nat); simpl; auto; try lia.
    now replace (j + 1 + fuel)%nat with (j + S fuel)%nat by lia.
Qed.


End Scan.

(** *** On the registries of the examples *)

Lemma scan_stays_in_range_witness :
  (scanLoop 1024 16 readRecord24 meta3 args20 10 firstPass).1 <> OutOfRange /\
  (threadBuffers (scanLoop 1024 16 readRecord24 meta3 args20 10 firstPass).2 = [] \/
   valid_index (i (scanLoop 1024 16 readRecord24 meta3 args20 10 firstPass).2)
     (scanLoop 1024 16 readRecord24 meta3 args20 10 firstPass).2).
Proof.
  apply scan_stays_in_range; [unfold valid_index; simpl; lia|reflexivity].
Defined.

Lemma full_output_saves_valid_index_witness :
  valid_index
    (lastStagingBufferChecked
       (scanLoop 1024 16 readRecord24 meta3 args20 10 firstPass).2)
    (scanLoop 1024 16 readRecord24 meta3 args20 10 firstPass).2.
Proof.
  apply full_output_saves_valid_index;
    [unfold valid_index; simpl; lia|reflexivity|vm_compute; reflexivity].
Defined.

Lemma meta3_argsRest_within_worst_case : within_worst_case meta3 argsRest.
Proof. intros re o ts f. unfold meta3, argsRest. lia. Defined.

Lemma readRecord24_sums_fit : sums_fit readRecord24.
Proof. intros sb p. simpl. lia. Defined.


(** Without the first condition the cursor leaves the buffer: the sum
    of [wideRecord] wraps to 16, the check of line 310 passes with 32
    bytes left, and a per-format compressor that keeps to the worst case
    of the record writes far past the end. *)
Lemma wrapped_sum_passes_check :
  worstCase wideRecord = 16 /\
  events (scanLoop 1024 16 readWideRecord meta3 argsRest 5 nearlyFull).2
  = [Compress wideRecord 992 995] /\
  out (scanLoop 1024 16 readWideRecord meta3 argsRest 5 nearlyFull).2
  = 995 + (2 ^ 32 + 13).
Proof. repeat split; vm_compute; reflexivity. Qed.


End DrainMore.

(** ** More on writing a batch *)

Module OutputMore.
Import Drain.

Lemma memset_inside v len : forall buf off,
  (off + len <= length buf)%nat ->
  memset buf off v len
  = Some (take off buf ++ replicate len v ++ drop (off + len) buf).
Proof.
  induction len as [|len IH]; intros buf off H; simpl.
  - now rewrite Nat.add_0_r, take_drop.
  - replace (off <? length buf)%nat with true
      by (symmetry; apply Nat.ltb_lt; lia).
    rewrite IH by (rewrite length_insert; lia).
    assert (L : <[off:=v]> buf !! off = Some v)
      by (apply list_lookup_insert_eq; lia).
    rewrite (take_S_r _ _ _ L), take_insert_ge by lia.
    rewrite drop_insert_lt by lia.
    rewrite <- app_assoc. simpl.
    now replace (S (off + len)) with (off + S len)%nat by lia.
Qed.

Lemma memset_outside v len : forall buf off,
  (0 < len)%nat -> (length buf < off + len)%nat ->
  memset buf off v len = None.
Proof.
  induction len as [|len IH]; intros buf off Hlen H; simpl; [lia|].
  destruct (off <? length buf)%nat eqn:E; [|reflexivity].
  apply Nat.ltb_lt in E.
  apply IH; [lia|]. rewrite length_insert. lia.
Qed.

(** X15. With direct I/O every batch is written in whole blocks: the
    length written is a multiple of 512, it is the length of the batch
    rounded up, by less than a block, and [padBytesWritten] grows, as a
    64-bit counter, by exactly the bytes added. *)
Theorem padBatch_rounds_up FILE_PARAMS buf out pad :
  Z.land FILE_PARAMS O_DIRECT <> 0 -> 0 <= out ->
  (padBatch FILE_PARAMS buf out pad).1.2 mod 512 = 0 /\
  out <= (padBatch FILE_PARAMS buf out pad).1.2 < out + 512 /\
  to_u64 (padBatch FILE_PARAMS buf out pad).2
  = to_u64 (pad + ((padBatch FILE_PARAMS buf out pad).1.2 - out)).
Proof.
  intros Hd Ho. unfold padBatch.
  destruct (Z.land FILE_PARAMS O_DIRECT =? 0) eqn:E; [lia|]. simpl.
  rewrite Z.rem_mod_nonneg by lia.
  pose proof (Z.mod_pos_bound out 512 ltac:(lia)) as Hr.
  destruct (out mod 512 =? 0) eqn:E0; simpl.
  - split; [lia|]. split; [lia|]. now rewrite Z.sub_diag, Z.add_0_r.
  - split; [|split; [lia|]].
    + pose proof (Z.div_mod out 512 ltac:(lia)) as D.
      replace (out + 512 - out mod 512) with ((out / 512 + 1) * 512) by lia.
      apply Z.mod_mul. lia.
    + unfold to_u64. rewrite Z.mod_mod by (unfold u64_modulus; lia).
      f_equal. lia.
Qed.

(** X16. What the padding clears.  With direct I/O and a batch that
    does not end on a block boundary, [out mod 512] bytes are set to
    zero from the cursor on and every other byte of the buffer is left
    as it was; when those bytes do not fit between the cursor and the
    end of the buffer the [memset] writes past the end. *)
Theorem padBatch_clears_bytesOver FILE_PARAMS buf out pad :
  Z.land FILE_PARAMS O_DIRECT <> 0 -> 0 <= out ->
  (padBatch FILE_PARAMS buf out pad).1.1
  = if out mod 512 =? 0 then Some buf
    else if out + out mod 512 <=? Z.of_nat (length buf)
    then Some (take (Z.to_nat out) buf
                 ++ replicate (Z.to_nat (out mod 512)) 0
                 ++ drop (Z.to_nat (out + out mod 512)) buf)
    else None.
Proof.
  intros Hd Ho. unfold padBatch.
  destruct (Z.land FILE_PARAMS O_DIRECT =? 0) eqn:E; [lia|]. simpl.
  rewrite Z.rem_mod_nonneg by lia.
  pose proof (Z.mod_pos_bound out 512 ltac:(lia)) as Hr.
  destruct (out mod 512 =? 0) eqn:E0; simpl; [reflexivity|].
  destruct (out + out mod 512 <=? Z.of_nat (length buf)) eqn:Ef.
  - rewrite memset_inside by lia. now rewrite Z2Nat.inj_add by lia.
  - apply memset_outside; lia.
Qed.

Lemma padBatch_rounds_up_witness :
  (padBatch directParams stale1024 100 0).1.2 mod 512 = 0 /\
  100 <= (padBatch directParams stale1024 100 0).1.2 < 100 + 512 /\
  to_u64 (padBatch directParams stale1024 100 0).2
  = to_u64 (0 + ((padBatch directParams stale1024 100 0).1.2 - 100)).
Proof.
  apply padBatch_rounds_up; [vm_compute; discriminate|lia].
Defined.

Lemma padBatch_clears_bytesOver_witness :
  (padBatch directParams stale1024 924 0).1.1 = None.
Proof.
  exact (padBatch_clears_bytesOver directParams stale1024 924 0
           ltac:(vm_compute; discriminate) ltac:(lia)).
Defined.

End OutputMore.

(** ** Asynchronous output *)

Module AioFacts.
Import Aio.

(** A counter that wraps keeps count modulo its width. *)
Lemma u32_step a b n :
  to_u32 a = to_u32 b -> to_u32 (to_u32 (a + n)) = to_u32 (b + n).
Proof.
  unfold to_u32. intros H. rewrite Z.mod_mod by lia.
  rewrite <- (Z.add_mod_idemp_l a), <- (Z.add_mod_idemp_l b) by lia.
  now rewrite H.
Qed.

Lemma u64_step a b n :
  to_u64 a = to_u64 b -> to_u64 (to_u64 (a + n)) = to_u64 (b + n).
Proof.
  unfold to_u64, u64_modulus. intros H. rewrite Z.mod_mod by lia.
  rewrite <- (Z.add_mod_idemp_l a), <- (Z.add_mod_idemp_l b) by lia.
  now rewrite H.
Qed.

(** What [log] and [reaped] leave in each member. *)
Lemma calls_log c w : calls (log c w) = calls w ++ [c].
Proof. reflexivity. Qed.

Lemma calls_reaped w : calls (reaped w) = calls w.
Proof. reflexivity. Qed.

Lemma flag_log c w : hasOutstandingOperation (log c w) = hasOutstandingOperation w.
Proof. reflexivity. Qed.

Lemma flag_reaped w : hasOutstandingOperation (reaped w) = false.
Proof. reflexivity. Qed.

Lemma count_log c w : numAioWritesCompleted (log c w) = numAioWritesCompleted w.
Proof. reflexivity. Qed.

Lemma count_reaped w :
  numAioWritesCompleted (reaped w) = to_u32 (numAioWritesCompleted w + 1).
Proof. reflexivity. Qed.

Lemma total_log c w : totalBytesWritten (log c w) = totalBytesWritten w.
Proof. reflexivity. Qed.

Lemma total_reaped w : totalBytesWritten (reaped w) = totalBytesWritten w.
Proof. reflexivity. Qed.

Lemma compressing_log c w : compressingBuffer (log c w) = compressingBuffer w.
Proof. reflexivity. Qed.

Lemma compressing_reaped w : compressingBuffer (reaped w) = compressingBuffer w.
Proof. reflexivity. Qed.

Lemma double_log c w : outputDoubleBuffer (log c w) = outputDoubleBuffer w.
Proof. reflexivity. Qed.

Lemma double_reaped w : outputDoubleBuffer (reaped w) = outputDoubleBuffer w.
Proof. reflexivity. Qed.

Lemma aio_buf_log c w : aio_buf (log c w) = aio_buf w.
Proof. reflexivity. Qed.

Lemma aio_buf_reaped w : aio_buf (reaped w) = aio_buf w.
Proof. reflexivity. Qed.

Ltac open_calls :=
  cbv zeta;
  cbn [calls hasOutstandingOperation numAioWritesCompleted totalBytesWritten
       compressingBuffer outputDoubleBuffer aio_buf];
  rewrite ?calls_reaped, ?flag_reaped, ?count_reaped, ?total_reaped,
    ?compressing_reaped, ?double_reaped, ?aio_buf_reaped,
    ?calls_log, ?flag_log, ?count_log, ?total_log,
    ?compressing_log, ?double_log, ?aio_buf_log, ?fold_left_app;
  cbn [fold_left watch tally fst snd andb negb].

(** *** One operation at a time *)

Lemma reap_in_order a w :
  in_order w -> in_order (waitForAIO a w) /\ in_order (reapBeforeWrite a w).
Proof.
  unfold in_order, waitForAIO, reapBeforeWrite. intros H.
  destruct (hasOutstandingOperation w) eqn:Ho; [|now rewrite Ho].
  destruct (error_first a =? EINPROGRESS), (negb (suspend_ret a =? 0)),
    (negb (error_after a =? 0)), (return_value a <? 0);
    open_calls; rewrite H; split; reflexivity.
Qed.

Lemma outputBatch_in_order use a aw wr n w :
  aw <> -1 -> in_order w -> in_order (outputBatch use a aw wr n w).
Proof.
  intros Haw H. unfold outputBatch. destruct use.
  - pose proof (proj2 (reap_in_order a w H)) as R.
    assert (Hf : hasOutstandingOperation (reapBeforeWrite a w) = false).
    { unfold reapBeforeWrite. destruct (hasOutstandingOperation w) eqn:Ho;
        [reflexivity|exact Ho]. }
    unfold in_order in *. rewrite Hf in R. unfold submit.
    destruct (aw =? -1) eqn:E; [lia|].
    open_calls. rewrite R. cbn [fst snd andb negb]. now rewrite E.
  - unfold in_order in *.
    destruct (negb (n =? wr)); open_calls; rewrite H; reflexivity.
Qed.

(** After an [aio_write] that fails the flag is set with nothing in
    flight. *)
Lemma failed_submission a wr n w :
  in_order w ->
  fold_left watch (calls (outputBatch true a (-1) wr n w)) (true, false)
  = (true, false) /\
  hasOutstandingOperation (outputBatch true a (-1) wr n w) = true.
Proof.
  intros H. unfold outputBatch.
  pose proof (proj2 (reap_in_order a w H)) as R.
  assert (Hf : hasOutstandingOperation (reapBeforeWrite a w) = false).
  { unfold reapBeforeWrite. destruct (hasOutstandingOperation w) eqn:Ho;
      [reflexivity|exact Ho]. }
  unfold in_order in R. rewrite Hf in R. unfold submit.
  replace (-1 =? -1) with true by reflexivity.
  open_calls. rewrite R. split; reflexivity.
Qed.

(** Once a call is out of place the calls stay so. *)
Lemma watch_stuck l : forall b, (fold_left watch l (false, b)).1 = false.
Proof.
  induction l as [|c l IH]; intros b; [reflexivity|]. simpl.
  destruct c; simpl; apply IH.
Qed.

(** The reap of an operation that was never queued. *)
Lemma reap_out_of_place s w :
  fold_left watch (calls w) (true, false) = (true, false) ->
  hasOutstandingOperation w = true ->
  paired (calls (run true [s] w)) = false.
Proof.
  intros H Ho. unfold paired, run. cbn [fold_left].
  assert (G : forall a,
    (exists rest, calls (waitForAIO a w) = calls w ++ CallAioError :: rest) /\
    (exists rest,
       calls (reapBeforeWrite a w) = calls w ++ CallAioError :: rest)).
  { intros a. unfold waitForAIO, reapBeforeWrite. rewrite Ho.
    destruct (error_first a =? EINPROGRESS), (negb (suspend_ret a =? 0)),
      (negb (error_after a =? 0)), (return_value a <? 0);
      cbv zeta; rewrite ?calls_reaped, ?calls_log, <- ?app_assoc;
      split; eexists; reflexivity. }
  assert (Stuck : forall rest,
    (fold_left watch (calls w ++ CallAioError :: rest) (true, false)).1
    = false).
  { intros rest. rewrite fold_left_app, H. simpl. apply watch_stuck. }
  destruct s as [a aw wr n|a].
  - unfold outputBatch, submit.
    destruct (proj2 (G a)) as [rest E].
    destruct (aw =? -1); cbn [calls]; rewrite !calls_log, E, <- !app_assoc;
      apply Stuck.
  - destruct (proj1 (G a)) as [rest E]. rewrite E. apply Stuck.
Qed.


(** *** The counters *)

Lemma reap_counted a w :
  counted w -> counted (waitForAIO a w) /\ counted (reapBeforeWrite a w).
Proof.
  unfold counted, bytes_submitted, reaps, waitForAIO, reapBeforeWrite.
  intros [Hb Hr].
  destruct (hasOutstandingOperation w); [|tauto].
  destruct (error_first a =? EINPROGRESS), (negb (suspend_ret a =? 0)),
    (negb (error_after a =? 0)), (return_value a <? 0);
    open_calls;
    (split; split; try exact Hb; now apply u32_step).
Qed.

Lemma outputBatch_counted use a aw wr n w :
  counted w -> counted (outputBatch use a aw wr n w).
Proof.
  intros H. unfold outputBatch. destruct use.
  - pose proof (proj2 (reap_counted a w H)) as [Rb Rr].
    unfold counted, bytes_submitted, reaps in *. unfold submit.
    destruct (aw =? -1); open_calls;
      (split; [now apply u64_step|exact Rr]).
  - destruct H as [Hb Hr]. unfold counted, bytes_submitted, reaps in *.
    destruct (negb (n =? wr)); open_calls; split; assumption.
Qed.

(** X18. The two statistics of the output follow the calls.  Over
    any sequence of batches and calls of [waitForAIO],
    [totalBytesWritten] is, as a 64-bit counter, the bytes handed to
    [aio_write] (a batch written with [write] is not counted), and
    [numAioWritesCompleted] is, as a 32-bit counter, the number of
    operations reaped with [aio_return], failed ones included. *)
Theorem output_counters_follow_calls use steps : forall w,
  counted w -> counted (run use steps w).
Proof.
  unfold run. induction steps as [|s steps IH]; intros w H; simpl; [exact H|].
  apply IH. destruct s; [now apply outputBatch_counted|].
  now apply reap_counted.
Qed.

(** *** The two buffers *)

Lemma reap_buffers a w :
  double_buffered w ->
  double_buffered (waitForAIO a w) /\ double_buffered (reapBeforeWrite a w).
Proof.
  unfold double_buffered, waitForAIO, reapBeforeWrite. intros [Hd Hb].
  destruct (hasOutstandingOperation w) eqn:Ho; [|now rewrite Ho].
  destruct (error_first a =? EINPROGRESS), (negb (suspend_ret a =? 0)),
    (negb (error_after a =? 0)), (return_value a <? 0);
    open_calls; (split; split; [exact Hd|discriminate|exact Hd|discriminate]).
Qed.


(** *** The reap at the end of the thread *)

Lemma busyWait_none polls : forall w,
  busyWait polls w = None <-> Forall (fun e => e = EINPROGRESS) polls.
Proof.
  induction polls as [|e polls IH]; intros w; simpl.
  - split; [constructor|reflexivity].
  - destruct (e =? EINPROGRESS) eqn:E.
    + rewrite IH. split.
      * intros H. constructor; [lia|exact H].
      * intros H. now inversion H.
    + split; [discriminate|]. intros H. inversion H; subst. lia.
Qed.

(** X20. The reap at the end of the thread spins on [aio_error]: it
    does not come back as long as every answer is [EINPROGRESS], and at
    the first other answer it reaps the operation.  Whenever it comes
    back no operation is outstanding. *)
Theorem reapAtExit_spins_until_done polls err ret w :
  (reapAtExit polls err ret w = None <->
   hasOutstandingOperation w = true /\
   Forall (fun e => e = EINPROGRESS) polls) /\
  (forall w', reapAtExit polls err ret w = Some w' ->
              hasOutstandingOperation w' = false).
Proof.
  unfold reapAtExit.
  destruct (hasOutstandingOperation w) eqn:Ho.
  - pose proof (busyWait_none polls w) as B.
    destruct (busyWait polls w) as [w1|]; split.
    + split; [discriminate|]. intros [_ F]. apply B in F. discriminate.
    + intros w' [= <-]. destruct (negb (err =? 0)), (ret <? 0); reflexivity.
    + split; [intros _; split; [reflexivity|now apply B]|reflexivity].
    + discriminate.
  - split; [split; [discriminate|intros [H _]; discriminate]|].
    now intros w' [= <-].
Qed.

(** *** On a run of three batches *)


Lemma output_counters_follow_calls_witness :
  counted (run true someOutput unused).
Proof.
  apply output_counters_follow_calls. split; reflexivity.
Defined.


End AioFacts.

(** ** More on the sync protocol *)

Module SyncMore.
Import SyncProtocol.

Lemma idle_step_is_step w e w' :
  idle_step w = Some (e, w') ->
  In (e, w') (steps w) /\ of_the_drainer e = true /\
  forall how b, e = ScanEnd how b -> how = IdlePass /\ b = true.
Proof.
  intros H.
  assert (Hin : In (e, w') (drainer_steps w) /\ of_the_drainer e = true /\
                forall how b, e = ScanEnd how b -> how = IdlePass /\ b = true).
  { unfold idle_step, drainer_steps in *.
    destruct (drainer w) as [| |[|]| | | |];
      destruct (compressionThreadShouldExit w), (condMutex w),
        (syncRequested w); simpl in *; try discriminate;
      injection H as <- <-;
      (split; [repeat (first [left; reflexivity | right])|]);
      (split; [reflexivity|]); intros how b [=]; subst; now split. }
  destruct Hin as (Hin & Hd & Hs).
  split; [unfold steps; apply in_or_app; now left|]. now split.
Qed.

(** The run of [drain_idle] is a run of the two threads in which only
    the compression thread moves and every scan ends in a pass that
    found no work, with nothing compressed. *)
Lemma drain_idle_runs fuel : forall w t,
  reachable w t ->
  reachable (drain_idle fuel w).2 (t ++ (drain_idle fuel w).1) /\
  Forall (fun e => of_the_drainer e = true /\
                   forall how b, e = ScanEnd how b -> how = IdlePass /\ b = true)
    (drain_idle fuel w).1.
Proof.
  induction fuel as [|fuel IH]; intros w t H; simpl.
  - rewrite app_nil_r. split; [exact H|constructor].
  - destruct (bool_decide (caller w = SWoken)).
    { simpl. rewrite app_nil_r. split; [exact H|constructor]. }
    destruct (idle_step w) as [[e w']|] eqn:N.
    + destruct (idle_step_is_step _ _ _ N) as (Hin & Hd & Hs).
      pose proof (reach_step _ _ _ _ H Hin) as H'.
      destruct (IH w' (t ++ [e]) H') as [R F].
      destruct (drain_idle fuel w') as [t' w'']. simpl in *.
      split; [now rewrite <- app_assoc in R|].
      constructor; [now split|exact F].
    + simpl. rewrite app_nil_r. split; [exact H|constructor].
Qed.

Lemma explored_all_woken : all_woken 12 explored = true.
Proof. vm_compute. reflexivity. Qed.

Lemma all_woken_at fuel R (p : node) :
  all_woken fuel R = true -> In p R ->
  compressionThreadShouldExit p.1 = false -> caller p.1 = SWaiting ->
  last (drain_idle fuel p.1).1 = Some NotifyHintQueueEmptied /\
  caller (drain_idle fuel p.1).2 = SWoken.
Proof.
  intros A Hin Hx Hc. unfold all_woken in A.
  rewrite List.forallb_forall in A. specialize (A _ Hin). cbn beta in A.
  rewrite Hx, Hc in A.
  replace (bool_decide (SWaiting = SWaiting)) with true in A by reflexivity.
  cbn [orb negb] in A. apply andb_prop in A as [A1 A2].
  apply bool_decide_eq_true in A1. apply bool_decide_eq_true in A2.
  now split.
Qed.

Lemma drain_idle_length fuel : forall w,
  (length (drain_idle fuel w).1 <= fuel)%nat.
Proof.
  induction fuel as [|fuel IH]; intros w; simpl; [lia|].
  destruct (bool_decide (caller w = SWoken)); [simpl; lia|].
  destruct (idle_step w) as [[e w']|]; [|simpl; lia].
  specialize (IH w'). destruct (drain_idle fuel w'). simpl in *. lia.
Qed.

(** X21. No request is lost.  From every state the two threads reach
    in which a caller is blocked in [sync] and the compression thread
    has not been told to exit, if the thread goes on by itself and
    every scan it starts ends in a pass that finds no work, with
    nothing compressed, then within 12 of its steps it signals
    [hintQueueEmptied] and the caller is woken.  Nothing is said of a
    scan that does not end. *)
Theorem waiting_caller_is_woken w t :
  reachable w t ->
  compressionThreadShouldExit w = false ->
  caller w = SWaiting ->
  exists t' w',
    drain_idle 12 w = (t' ++ [NotifyHintQueueEmptied], w') /\
    reachable w' (t ++ t' ++ [NotifyHintQueueEmptied]) /\
    caller w' = SWoken /\
    (length t' < 12)%nat /\
    Forall (fun e => of_the_drainer e = true /\
                     forall how b, e = ScanEnd how b ->
                                   how = IdlePass /\ b = true) t'.
Proof.
  intros H Hx Hc.
  destruct (SyncFacts.reachable_explored w t H) as [Hin _].
  destruct (all_woken_at 12 explored _ explored_all_woken Hin Hx Hc)
    as [A1 A2].
  destruct (drain_idle_runs 12 w t H) as [R F].
  pose proof (drain_idle_length 12 w) as L. cbn [fst snd] in A1, A2.
  revert A1 A2. destruct (drain_idle 12 w) as [tr w']. cbn [fst snd] in *.
  intros A1 A2.
  destruct tr as [|x tr _] using rev_ind; [discriminate|].
  rewrite last_snoc in A1. injection A1 as ->.
  exists tr, w'. split; [reflexivity|]. split; [exact R|].
  split; [exact A2|]. rewrite length_app in L. simpl in L.
  split; [lia|]. now apply Forall_app in F as [F _].
Qed.

Lemma waiting_reachable :
  reachable (mkWorld true false Free DTop SWaiting)
    [SyncCall; CallerLocks; SetSync; NotifyWorkAdded; WaitHintQueueEmptied].
Proof. SyncFacts.run_of_events. Defined.

Lemma waiting_caller_is_woken_witness :
  exists t' w',
    drain_idle 12 (mkWorld true false Free DTop SWaiting)
    = (t' ++ [NotifyHintQueueEmptied], w') /\
    reachable w'
      ([SyncCall; CallerLocks; SetSync; NotifyWorkAdded; WaitHintQueueEmptied]
       ++ t' ++ [NotifyHintQueueEmptied]) /\
    caller w' = SWoken /\
    (length t' < 12)%nat /\
    Forall (fun e => of_the_drainer e = true /\
                     forall how b, e = ScanEnd how b ->
                                   how = IdlePass /\ b = true) t'.
Proof.
  exact (waiting_caller_is_woken _ _ waiting_reachable eq_refl eq_refl).
Defined.

End SyncMore.

(** ** The life of a logger *)

Module LifecycleFacts.
Import Setup Lifecycle.

Lemma take_out_nonzero x : forall l k,
  x <> 0 -> take_out x (nonzero l) = Some k ->
  exists l', take_out x l = Some l' /\ nonzero l' = k.
Proof.
  induction l as [|y l IH]; intros k Hx H; simpl in *; [discriminate|].
  destruct (y =? 0) eqn:Ey; simpl in H.
  - apply Z.eqb_eq in Ey. subst y.
    destruct (0 =? x) eqn:E0; [lia|].
    destruct (IH k Hx H) as (l' & -> & Hn). exists (0 :: l'). now split.
  - destruct (y =? x) eqn:Eyx.
    + injection H as <-. now exists l.
    + destruct (take_out x (nonzero l)) as [k'|] eqn:T; [|discriminate].
      injection H as <-. destruct (IH k' Hx eq_refl) as (l' & -> & Hn).
      exists (y :: l'). split; [reflexivity|]. simpl. now rewrite Ey, Hn.
Qed.

Lemma nonzero_nil l : nonzero l = [] -> Forall (fun x => x = 0) l.
Proof.
  induction l as [|y l IH]; simpl; intros H; [constructor|].
  destruct (y =? 0) eqn:E; simpl in H; [|discriminate].
  constructor; [lia|now apply IH].
Qed.

Lemma audit_app t t' : audit (t ++ t') = fold_left book t' (audit t).
Proof. unfold audit. now rewrite fold_left_app. Qed.

(** A [close] of the descriptor in [outputFd], when it is above 0 and
    the ledger has it, besides a descriptor [new] just opened. *)
Lemma close_held fd new d :
  0 < fd -> 0 < new -> nonzero d = [fd] ->
  exists d', take_out fd (new :: d) = Some d' /\ nonzero d' = [new].
Proof.
  intros Hfd Hnew Hd.
  apply take_out_nonzero; [lia|].
  simpl. destruct (new =? 0) eqn:E0; [lia|]. simpl. rewrite Hd. simpl.
  destruct (new =? fd) eqn:E; [|now rewrite Z.eqb_refl].
  apply Z.eqb_eq in E. now subst.
Qed.

Lemma close_last fd d :
  0 < fd -> nonzero d = [fd] ->
  exists d', take_out fd d = Some d' /\ nonzero d' = [].
Proof.
  intros Hfd Hd. apply take_out_nonzero; [lia|].
  rewrite Hd. simpl. now rewrite Z.eqb_refl.
Qed.

(** A request leaves the ledger in agreement with the members. *)
Lemma serve_agrees r m l :
  agrees m l -> agrees (serve r m).2 (fold_left book (serve r m).1 l).
Proof.
  intros (Hs & H0 & Hd & Hb). destruct l as [d b s].
  cbn [sound descriptors buffers] in Hs, Hd, Hb.
  subst s. destruct r as [filename e rw new|]; cbn [serve].
  - unfold setLogFile, setLogFile_internal.
    destruct ((e =? 0) && negb (rw =? 0)); [repeat split; assumption|].
    destruct (new =? 0) eqn:En.
    + apply Z.eqb_eq in En. subst new. now repeat split.
    + cbn [fst snd]. unfold agrees.
      cbn [outputFd compressingBuffer outputDoubleBuffer].
      destruct (0 <=? new) eqn:Ep, (joinable m), (outputFd m >? 0) eqn:Efd;
        cbn [map app fold_left]; cbn [book]; rewrite Ep;
        cbn [descriptors buffers sound];
        try (destruct (close_held (outputFd m) new d) as (d' & -> & N);
             [lia|lia|exact Hd|]);
        try (destruct (close_last (outputFd m) d) as (d' & -> & N);
             [lia|exact Hd|]);
        cbn [descriptors buffers sound];
        (repeat split; [lia| |exact Hb]);
        rewrite ?N, ?Hd; simpl; rewrite ?En; simpl; rewrite ?Hd;
        destruct (new >? 0) eqn:Eg; first [reflexivity|lia].
  - unfold agrees. cbn [fst snd fold_left outputFd compressingBuffer
                        outputDoubleBuffer sound descriptors buffers].
    repeat split; try assumption. tauto.
Qed.

Lemma serve_all_agrees rs : forall m l,
  agrees m l ->
  agrees (serve_all rs m).2 (fold_left book (serve_all rs m).1 l).
Proof.
  induction rs as [|r rs IH]; intros m l H; simpl; [exact H|].
  pose proof (serve_agrees r m l H) as H1.
  destruct (serve r m) as [t m']. simpl in H1.
  pose proof (IH m' _ H1) as H2.
  destruct (serve_all rs m') as [t' m'']. simpl in *.
  now rewrite fold_left_app.
Qed.

(** The constructor leaves the ledger in agreement with the members. *)
Lemma construct_agrees open_ret alloc1 alloc2 t m :
  construct open_ret alloc1 alloc2 = Some (t, m) -> agrees m (audit t).
Proof.
  unfold construct, FastLogger_ctor.
  destruct alloc1 as [e1 p1], alloc2 as [e2 p2].
  destruct (open_ret =? 0) eqn:E0; [discriminate|].
  destruct (negb (e1 =? 0)); [discriminate|].
  destruct (negb (e2 =? 0)); [discriminate|].
  intros [= <- <-]. unfold audit, agrees. simpl.
  destruct (0 <=? open_ret) eqn:Ep, (p1 =? 0) eqn:E1, (p2 =? 0) eqn:E2;
    simpl; rewrite ?E0; simpl;
    (repeat split; [lia| |tauto]);
    destruct (open_ret >? 0) eqn:Eg; first [reflexivity|lia].
Qed.

Lemma free_one c d rest :
  fold_left book (FreeBuffer c :: rest) (mkLedger d [c] true)
  = fold_left book rest (mkLedger d [] true).
Proof. simpl. now rewrite Z.eqb_refl. Qed.

Lemma free_both c o d b rest :
  b = [o; c] \/ b = [c; o] ->
  fold_left book (FreeBuffer c :: FreeBuffer o :: rest) (mkLedger d b true)
  = fold_left book rest (mkLedger d [] true).
Proof.
  intros [-> | ->]; simpl; rewrite ?Z.eqb_refl.
  - destruct (Z.eqb_spec o c) as [->|N]; simpl; now rewrite Z.eqb_refl.
  - simpl. now rewrite Z.eqb_refl.
Qed.

(** The destructor gives back what the members hold. *)
Lemma dtor_releases m l :
  agrees m l ->
  sound (fold_left book (FastLogger_dtor m).1 l) = true /\
  buffers (fold_left book (FastLogger_dtor m).1 l) = [] /\
  nonzero (descriptors (fold_left book (FastLogger_dtor m).1 l)) = [].
Proof.
  intros (Hs & H0 & Hd & Hb). destruct l as [d b s].
  cbn [sound descriptors buffers] in Hs, Hd, Hb. subst s.
  unfold FastLogger_dtor.
  assert (Hstop : forall l,
    fold_left book ([Did CallSync; Did RequestExit]
                    ++ (if joinable m then [Did JoinThread] else [])) l = l)
    by (intros l; destruct (joinable m); reflexivity).
  assert (Hclose : exists d',
    fold_left book
      (if outputFd m >? 0 then [Did (CloseFd (outputFd m))] else [])
      (mkLedger d [] true) = mkLedger d' [] true /\ nonzero d' = []).
  { destruct (outputFd m >? 0) eqn:Efd.
    - destruct (close_last (outputFd m) d) as (d' & E & N); [lia|exact Hd|].
      exists d'. simpl. rewrite E. now split.
    - exists d. now split. }
  destruct Hclose as (d' & Hclose & N).
  simpl in Hb. revert Hb.
  destruct (compressingBuffer m =? 0) eqn:Ec,
    (outputDoubleBuffer m =? 0) eqn:Eo; cbn [negb fst]; intros Hb;
    rewrite fold_left_app, Hstop; cbn [app].
  - assert (b = []) as -> by tauto. now rewrite Hclose.
  - assert (b = [outputDoubleBuffer m]) as -> by tauto.
    rewrite free_one. now rewrite Hclose.
  - assert (b = [compressingBuffer m]) as -> by tauto.
    rewrite free_one. now rewrite Hclose.
  - rewrite (free_both _ _ d b _ Hb). now rewrite Hclose.
Qed.

(** X22. A logger gives back what it takes.  Over a whole life, from a
    constructor that does not exit, through any calls of [setLogFile]
    (refused or not, with [open] succeeding or failing) and any swaps
    of the two buffers, to the destructor: every [close] is of a
    descriptor that is open and every [free] of a buffer that is
    allocated, so nothing is given back twice; at the end both buffers
    are freed, and the only descriptors left open are descriptors
    numbered 0, which [setLogFile] takes for a failure. *)
Theorem life_gives_back_what_it_takes open_ret alloc1 alloc2 rs t :
  life open_ret alloc1 alloc2 rs = Some t ->
  sound (audit t) = true /\
  buffers (audit t) = [] /\
  Forall (fun fd => fd = 0) (descriptors (audit t)).
Proof.
  unfold life. destruct (construct open_ret alloc1 alloc2) as [[t0 m0]|] eqn:C;
    [|discriminate].
  pose proof (construct_agrees _ _ _ _ _ C) as H0.
  pose proof (serve_all_agrees rs m0 _ H0) as H1.
  destruct (serve_all rs m0) as [t1 m1]. simpl in H1.
  intros [= <-]. rewrite audit_app, fold_left_app.
  destruct (dtor_releases m1 _ H1) as (Hs & Hb & Hd).
  repeat split; [exact Hs|exact Hb|now apply nonzero_nil].
Qed.

Lemma life_gives_back_what_it_takes_witness :
  exists t,
    life 3 (0, 65536) (0, 131072) someRequests = Some t /\
    sound (audit t) = true /\
    buffers (audit t) = [] /\
    Forall (fun fd => fd = 0) (descriptors (audit t)).
Proof.
  exists (default [] (life 3 (0, 65536) (0, 131072) someRequests)).
  split; [reflexivity|].
  apply (life_gives_back_what_it_takes 3 (0, 65536) (0, 131072) someRequests).
  reflexivity.
Defined.

End LifecycleFacts.
